(** * go-gousu-smtp: the SMTP service of service.go

    A shallow embedding of [Service] (service.go): the message composed by
    [SendEmail], the goroutine started by [Start], [Stop], [Health], and the
    hand-off between calling threads and the goroutine over the two
    unbuffered channels [channelIn] and [channelOut].

    The transport (go-mail's dialer, [mail.Send] and [SendCloser.Close]) is
    the environment: its answers are inputs of the transition that makes the
    calls. *)

From Stdlib Require Import ZArith NArith Ascii String Lia.
From stdpp Require Import gmap strings list.

Open Scope Z_scope.

(** ** Go values *)

Module Go.
(** An [error] interface value: [None] is nil, [Some msg] is a non-nil
    error whose [Error()] text is [msg]. *)
Definition error : Type := option string.

(** [time.Second], in nanoseconds (the unit of [time.Duration]). *)
Definition Second : Z := 1000000000.
End Go.

(** ** Go's unicode/utf8, mime and path/filepath, as far as go-mail uses
    them on what the service hands to it *)

(** Package unicode/utf8. *)
Module Utf8.
(** [s1 < lo || hi < s1] negated. *)
Definition within (lo hi : N) (a : ascii) : bool :=
  ((lo <=? N_of_ascii a) && (N_of_ascii a <=? hi))%N.

(** The size [utf8.DecodeRuneInString] returns for the rune that starts
    [s]: 1 for ASCII, for an invalid byte and for a sequence that is cut
    short or ill-formed. *)
Definition runeLen (s : list ascii) : nat :=
  match s with
  | [] => 0%nat
  | s0 :: t =>
    let b := N_of_ascii s0 in
    if (b <? 194)%N then 1%nat                       (* ASCII, or 0x80-0xC1: invalid *)
    else if (b <? 224)%N then                        (* 0xC2-0xDF: two bytes *)
      match t with
      | s1 :: _ => if within 128 191 s1 then 2%nat else 1%nat
      | _ => 1%nat
      end
    else if (b <? 240)%N then                        (* 0xE0-0xEF: three bytes *)
      match t with
      | s1 :: s2 :: _ =>
        if within (if (b =? 224)%N then 160 else 128)
                  (if (b =? 237)%N then 159 else 191) s1
           && within 128 191 s2
        then 3%nat else 1%nat
      | _ => 1%nat
      end
    else if (b <? 245)%N then                        (* 0xF0-0xF4: four bytes *)
      match t with
      | s1 :: s2 :: s3 :: _ =>
        if within (if (b =? 240)%N then 144 else 128)
                  (if (b =? 244)%N then 143 else 191) s1
           && within 128 191 s2 && within 128 191 s3
        then 4%nat else 1%nat
      | _ => 1%nat
      end
    else 1%nat                                       (* 0xF5-0xFF: invalid *)
  end.
End Utf8.

(** Package mime, encodedword.go: the Q encoding of RFC 2047 with charset
    UTF-8, which go-mail applies to header values. *)
Module Mime.
Definition maxEncodedWordLen : nat := 75.

(** How much content fits in one encoded-word. *)
Definition maxContentLen : nat :=
  (maxEncodedWordLen - String.length "=?UTF-8?q?" - String.length "?=")%nat.

(** [(b < ' ' || b > '~') && b != '\t'] *)
Definition needsEncodingByte (a : ascii) : bool :=
  (((N_of_ascii a <? 32) || (126 <? N_of_ascii a)) && negb (N_of_ascii a =? 9))%N.

Fixpoint needsEncoding (s : string) : bool :=
  match s with
  | EmptyString => false
  | String a s => needsEncodingByte a || needsEncoding s
  end.

Definition upperhex : string := "0123456789ABCDEF".

Definition hexDigit (n : N) : ascii :=
  match String.get (N.to_nat n) upperhex with
  | Some d => d
  | None => "0"%char
  end.

(** [b >= lo && b <= '~' && b != '=' && b != '?' && b != '_'] *)
Definition isLiteral (lo : N) (a : ascii) : bool :=
  ((lo <=? N_of_ascii a) && (N_of_ascii a <=? 126)
   && negb (N_of_ascii a =? 61) && negb (N_of_ascii a =? 63)
   && negb (N_of_ascii a =? 95))%N.

(** One byte of [writeQString]. *)
Definition writeQByte (a : ascii) : string :=
  if (N_of_ascii a =? 32)%N then "_"
  else if isLiteral 33 a then String a ""
  else String "="%char
         (String (hexDigit (N_of_ascii a / 16))
            (String (hexDigit (N_of_ascii a mod 16)) "")).

(** [closeWord; ' '; openWord] *)
Definition splitWord : string := "?= =?UTF-8?q?".

(** The loop of [qEncode] for UTF-8. [inRune] counts the bytes of the
    current rune still to be written; at the start of a rune the word is
    split when the rune would not fit. *)
Fixpoint qEncode (inRune currentLen : nat) (s : list ascii) : string :=
  match s with
  | [] => ""
  | a :: t =>
    match inRune with
    | S n => String.append (writeQByte a) (qEncode n currentLen t)
    | O =>
      let runeLen := if isLiteral 32 a then 1%nat else Utf8.runeLen s in
      let encLen := if isLiteral 32 a then 1%nat else (3 * runeLen)%nat in
      if (maxContentLen <? currentLen + encLen)%nat
      then String.append splitWord
             (String.append (writeQByte a) (qEncode (runeLen - 1) encLen t))
      else String.append (writeQByte a)
             (qEncode (runeLen - 1) (currentLen + encLen) t)
    end
  end.

(** [mime.QEncoding.Encode("UTF-8", s)] *)
Definition Encode (s : string) : string :=
  if needsEncoding s
  then String.append "=?UTF-8?q?"
         (String.append (qEncode 0 0 (list_ascii_of_string s)) "?=")
  else s.
End Mime.

(** [filepath.Base] where the separator is the slash and paths have no
    volume name (every system but Windows). *)
Module Filepath.
Definition isPathSeparator (a : ascii) : bool := Ascii.eqb a "/".

Fixpoint dropSeparators (l : list ascii) : list ascii :=
  match l with
  | a :: t => if isPathSeparator a then dropSeparators t else l
  | [] => []
  end.

(** The part of [l] behind its last separator; [acc] is what was read since
    the last one. *)
Fixpoint lastElement (acc l : list ascii) : list ascii :=
  match l with
  | [] => acc
  | a :: t => if isPathSeparator a then lastElement [] t else lastElement (acc ++ [a]) t
  end.

Definition Base (path : string) : string :=
  if bool_decide (path = "") then "."
  else
    let stripped := rev (dropSeparators (rev (list_ascii_of_string path))) in
    match lastElement [] stripped with
    | [] => "/"
    | name => string_of_list_ascii name
    end.
End Filepath.

(** ** go-mail's [Message]

    The message is go-mail's, as it stands when it is handed to the
    transport: header values encoded as [SetHeader] encodes them, body parts
    as passed to [SetBody], files under the name go-mail keeps for them and
    with the bytes their reader yields. What the transport writes on the
    wire is not part of this development. *)

Module Mail.
Record part := mkPart { contentType : string; body : string }.

Record file := mkFile { Name : string; Content : list Byte.byte }.

Record Message := mkMessage {
  header : gmap string (list string);
  parts : list part;
  attachments : list file;
  embedded : list file
}.

Definition NewMessage : Message :=
  {| header := ∅; parts := []; attachments := []; embedded := [] |}.

(** [m.encodeHeader(value)]: each value goes through the header encoder of
    the message, which is the Q encoder with charset UTF-8 for a message
    made by [NewMessage] without settings. *)
Definition encodeHeader (value : list string) : list string :=
  map Mime.Encode value.

(** [SetHeader] sets a value to the given header field. *)
Definition SetHeader (field : string) (value : list string) (m : Message) : Message :=
  {| header := <[field := encodeHeader value]> (header m);
     parts := parts m;
     attachments := attachments m;
     embedded := embedded m |}.

(** [fileFromReader(name, r)] *)
Definition fileFromReader (name : string) (r : list Byte.byte) : file :=
  mkFile (Filepath.Base name) r.

(** [SetBody] replaces any content previously set ([AddAlternative] is
    the call that appends). *)
Definition SetBody (contentType body : string) (m : Message) : Message :=
  {| header := header m;
     parts := [mkPart contentType body];
     attachments := attachments m;
     embedded := embedded m |}.

Definition EmbedReader (name : string) (r : list Byte.byte) (m : Message) : Message :=
  {| header := header m;
     parts := parts m;
     attachments := attachments m;
     embedded := embedded m ++ [fileFromReader name r] |}.

Definition AttachReader (name : string) (r : list Byte.byte) (m : Message) : Message :=
  {| header := header m;
     parts := parts m;
     attachments := attachments m ++ [fileFromReader name r];
     embedded := embedded m |}.
End Mail.

(** ** Configuration flags and the data model *)

Record Config := mkConfig {
  smtpHost : string;
  smtpPort : Z;
  smtpUser : string;
  smtpPassword : string;
  smtpFrom : string
}.

(** The defaults of the five flags. *)
Definition defaultConfig : Config :=
  {| smtpHost := "127.0.0.1"; smtpPort := 587; smtpUser := "";
     smtpPassword := ""; smtpFrom := "" |}.

Record EmailAttachement := mkEmailAttachement {
  Filename : string;
  Mimetype : string;
  Embedded : bool;
  Content : list Byte.byte
}.

(** [Attachements] is a slice: [None] is the nil slice. *)
Record Email := mkEmail {
  From : string;
  To : string;
  Subject : string;
  BodyPlain : string;
  BodyHTML : string;
  Attachements : option (list EmailAttachement)
}.

(** ** [SendEmail]: composing the message (service.go 138-168) *)

Definition isEmpty (s : string) : bool := bool_decide (s = "").

(** [from := m.From; if from == "" { from = *smtpFrom }] *)
Definition sender (cfg : Config) (m : Email) : string :=
  if isEmpty (From m) then smtpFrom cfg else From m.

Definition setHeaders (cfg : Config) (m : Email) (msg : Mail.Message) : Mail.Message :=
  Mail.SetHeader "Subject" [Subject m]
    (Mail.SetHeader "To" [To m]
      (Mail.SetHeader "From" [sender cfg m] msg)).

Definition setBodyPlain (m : Email) (msg : Mail.Message) : Mail.Message :=
  if isEmpty (BodyPlain m) then msg else Mail.SetBody "text/plain" (BodyPlain m) msg.

Definition setBodyHTML (m : Email) (msg : Mail.Message) : Mail.Message :=
  if isEmpty (BodyHTML m) then msg else Mail.SetBody "text/html" (BodyHTML m) msg.

(** One turn of the loop over [m.Attachements]. *)
Definition addAttachement (msg : Mail.Message) (attachement : EmailAttachement) : Mail.Message :=
  let reader := Content attachement in
  if Embedded attachement
  then Mail.EmbedReader (Filename attachement) reader msg
  else Mail.AttachReader (Filename attachement) reader msg.

Definition addAttachements (m : Email) (msg : Mail.Message) : Mail.Message :=
  match Attachements m with
  | None => msg
  | Some l => fold_left addAttachement l msg
  end.

Definition composeMessage (cfg : Config) (m : Email) : Mail.Message :=
  addAttachements m
    (setBodyHTML m
      (setBodyPlain m
        (setHeaders cfg m Mail.NewMessage))).

(** ** The transport and the worker's history *)

(** A connection handle: the [mail.SendCloser] a successful [Dial] returns. *)
Definition SendCloser : Type := nat.

(** What the transport answers to the calls of one loop turn: the result of
    [dialer.Dial()] (a connection, or a non-nil error with a nil closer), of
    [mail.Send] and of [closer.Close()]. Each is asked at most once per
    turn. *)
Record Outcomes := mkOutcomes {
  dial : SendCloser + string;
  send : Go.error;
  close : Go.error
}.

(** What the worker did, oldest first. *)
Inductive wevent :=
| WRecv (m : Mail.Message)                                (* m, ok := <-s.channelIn, ok *)
| WDial (r : SendCloser + string)                         (* dialer.Dial() *)
| WSend (k : SendCloser) (m : Mail.Message) (r : Go.error) (* mail.Send(closer, m) *)
| WClose (k : SendCloser) (r : Go.error)                   (* closer.Close() *)
| WEmit (e : Go.error).                                    (* s.channelOut <- e, taken *)

Inductive level := Info | Warn.

(** [dialer.Timeout = 35 * time.Second] and the [time.After] of the select. *)
Definition dialTimeout : Z := 35 * Go.Second.
Definition idleTimeout : Z := 30 * Go.Second.

(** ** The goroutine of [Start] (service.go 68-114) *)

(** The state the goroutine works on: its locals [open] and [closer]
    ([None] is the nil interface), the fields [s.error] and [s.log], and its
    history. The local [err] is only ever copied into [s.error]. *)
Record Worker := mkWorker {
  open : bool;
  closer : option SendCloser;
  error : Go.error;
  log : list (level * string);
  trace : list wevent
}.

Definition setOpen (b : bool) (w : Worker) : Worker :=
  mkWorker b (closer w) (error w) (log w) (trace w).
Definition setCloser (k : option SendCloser) (w : Worker) : Worker :=
  mkWorker (open w) k (error w) (log w) (trace w).
Definition setError (e : Go.error) (w : Worker) : Worker :=
  mkWorker (open w) (closer w) e (log w) (trace w).
Definition logf (l : level) (line : string) (w : Worker) : Worker :=
  mkWorker (open w) (closer w) (error w) (log w ++ [(l, line)]) (trace w).
Definition note (evs : list wevent) (w : Worker) : Worker :=
  mkWorker (open w) (closer w) (error w) (log w) (trace w ++ evs).

(** The three ways the select of one loop turn resolves. *)
Inductive selected :=
| RecvMsg (m : Mail.Message)   (* case m, ok := <-s.channelIn, with ok *)
| RecvClosed                   (* the same case with !ok *)
| TimerFired.                  (* case <-time.After(30 * time.Second) *)

(** Where a loop turn leaves the goroutine. *)
Inductive control :=
| Continue              (* back at the select *)
| Emit (e : Go.error)   (* at [s.channelOut <- e]; back at the select once taken *)
| Return                (* the goroutine ended *)
| Panic.                (* a call through a nil [closer]; see [consistent] *)

(** [if !open { ... }]: [inr] is the [continue] of a failed dial. *)
Definition dialIfClosed (o : Outcomes) (w : Worker) : Worker + Worker :=
  if open w then inl w
  else
    let w := note [WDial (dial o)] w in
    match dial o with
    | inr err => inr (setError (Some err) (setCloser None w))
    | inl k => inl (setError None (setOpen true (setCloser (Some k) w)))
    end.

(** [if err := mail.Send(closer, m); err != nil { ... }; s.channelOut <- nil] *)
Definition sendMessage (m : Mail.Message) (o : Outcomes) (w : Worker) : Worker * control :=
  match closer w with
  | None => (w, Panic)
  | Some k =>
    match send o with
    | Some err =>
      let w := note [WSend k m (Some err); WClose k (close o)] w in
      (setOpen false w, Emit (Some err))
    | None => (note [WSend k m None] w, Emit None)
    end
  end.

Definition onMessage (m : Mail.Message) (o : Outcomes) (w : Worker) : Worker * control :=
  match dialIfClosed o (note [WRecv m] w) with
  | inr w => (w, Continue)
  | inl w => sendMessage m o w
  end.

(** The timer case. *)
Definition onIdle (o : Outcomes) (w : Worker) : Worker * control :=
  if open w then
    match closer w with
    | None => (w, Panic)
    | Some k =>
      let w := note [WClose k (close o)] w in
      let w := match close o with
               | Some err => logf Warn (String.append "Can't close smtp connection: " err) w
               | None => w
               end in
      (setOpen false w, Continue)
    end
  else (w, Continue).

Definition loopBody (sel : selected) (o : Outcomes) (w : Worker) : Worker * control :=
  match sel with
  | RecvMsg m => onMessage m o w
  | RecvClosed => (w, Return)
  | TimerFired => onIdle o w
  end.

(** The goroutine as it reaches the select for the first time. *)
Definition startedWorker : Worker :=
  {| open := false; closer := None; error := None;
     log := [(Info, "SMTP-Service started, ready to send emails")];
     trace := [] |}.

(** ** The service and its callers *)

(** Where the goroutine stands. *)
Inductive worker_pc :=
| Select                 (* waiting in the select *)
| SendOut (e : Go.error) (* blocked at [s.channelOut <- e] *)
| Exited
| Panicked.

(** Where a calling thread stands. *)
Inductive thread_pc :=
| AtSendIn (msg : Mail.Message)  (* SendEmail, blocked at [s.channelIn <- msg] *)
| AtRecvOut                      (* SendEmail, blocked at [<-s.channelOut] *)
| Returned (e : Go.error)        (* SendEmail returned e *)
| InStop                         (* Stop, between the two close calls *)
| Stopped.                       (* Stop returned *)

(** A [Service] after [NewService] and one [Start]. [wait] is the time the
    goroutine has spent in the current select, in nanoseconds. An
    unrecovered panic of any goroutine ends the process ([panicked]). *)
Record System := mkSystem {
  worker : Worker;
  wpc : worker_pc;
  wait : Z;
  chanInClosed : bool;
  chanOutClosed : bool;
  threads : gmap nat thread_pc;
  panicked : bool
}.

Definition initial : System :=
  {| worker := startedWorker; wpc := Select; wait := 0;
     chanInClosed := false; chanOutClosed := false;
     threads := ∅; panicked := false |}.

(** [Health] (service.go 128-134). *)
Definition Health (s : System) : Go.error :=
  match error (worker s) with
  | Some err => Some err
  | None => None
  end.

Definition setThread (c : nat) (p : thread_pc) (s : System) : System :=
  mkSystem (worker s) (wpc s) (wait s) (chanInClosed s) (chanOutClosed s)
           (<[c := p]> (threads s)) (panicked s).

Definition panic (s : System) : System :=
  mkSystem (worker s) (wpc s) (wait s) (chanInClosed s) (chanOutClosed s)
           (threads s) true.

(** The goroutine after a loop turn; entering the select again arms a new
    timer. *)
Definition resume (r : Worker * control) (s : System) : System :=
  let s' pc := mkSystem r.1 pc 0 (chanInClosed s) (chanOutClosed s)
                        (threads s) (panicked s) in
  match r.2 with
  | Continue => s' Select
  | Emit e => s' (SendOut e)
  | Return => s' Exited
  | Panic => panic (s' Panicked)
  end.

Definition isAtSendIn (p : thread_pc) : bool :=
  match p with AtSendIn _ => true | _ => false end.

(** Some thread is blocked at [s.channelIn <- msg]. *)
Definition senderBlocked (s : System) : bool :=
  bool_decide (map_Exists (λ _ p, isAtSendIn p = true) (threads s)).

Definition isSendOut (pc : worker_pc) : bool :=
  match pc with SendOut _ => true | _ => false end.

(** The steps of the service. A hand-off covers the whole loop turn of the
    goroutine, up to its next blocking point: in between it only works on
    its own state and talks to the transport. *)
Inductive event :=
| Call (c : nat) (m : Email)       (* thread c enters SendEmail(m) and reaches line 170 *)
| CallNil (c : nat)               (* thread c enters SendEmail(nil): line 140 reads m.From *)
| Handoff (c : nat) (o : Outcomes) (* the goroutine receives c's message and runs the turn *)
| Reply (c : nat)                  (* c receives what the goroutine sends on channelOut *)
| Tick (d : Z)                     (* d nanoseconds pass *)
| Timer (o : Outcomes)             (* the select takes the timer case *)
| Stop (t : nat)                   (* thread t enters Stop: close(s.channelIn) *)
| StopOut (t : nat)                (* t goes on: close(s.channelOut) *)
| WorkerSeesClosed                 (* the select receives from the closed channelIn *)
| ReplyClosed (c : nat).           (* c receives from the closed channelOut *)

Section Service.
Variable cfg : Config.

Definition step (ev : event) (s : System) : option System :=
  if panicked s then None else
  match ev with
  | Call c m =>
    match threads s !! c with
    | Some _ => None
    | None =>
      let s := setThread c (AtSendIn (composeMessage cfg m)) s in
      (* a send on a closed channel panics *)
      Some (if chanInClosed s then panic s else s)
    end
  | CallNil c =>
    match threads s !! c with
    | Some _ => None
    | None => Some (panic s)   (* nil pointer dereference *)
    end
  | Handoff c o =>
    match wpc s, threads s !! c with
    | Select, Some (AtSendIn msg) =>
      if chanInClosed s then None
      else Some (resume (loopBody (RecvMsg msg) o (worker s)) (setThread c AtRecvOut s))
    | _, _ => None
    end
  | Reply c =>
    match wpc s, threads s !! c with
    | SendOut e, Some AtRecvOut =>
      if chanOutClosed s then None
      else Some (resume (note [WEmit e] (worker s), Continue) (setThread c (Returned e) s))
    | _, _ => None
    end
  | Tick d =>
    if bool_decide (0 ≤ d) then
      Some (mkSystem (worker s) (wpc s)
                     (match wpc s with Select => wait s + d | _ => wait s end)
                     (chanInClosed s) (chanOutClosed s) (threads s) (panicked s))
    else None
  | Timer o =>
    match wpc s with
    | Select =>
      if bool_decide (idleTimeout ≤ wait s)
      then Some (resume (loopBody TimerFired o (worker s)) s)
      else None
    | _ => None
    end
  | Stop t =>
    match threads s !! t with
    | Some _ => None
    | None =>
      let s' := mkSystem (worker s) (wpc s) (wait s) true (chanOutClosed s)
                         (<[t := InStop]> (threads s)) (panicked s) in
      (* closing a closed channel panics, and so does a sender blocked on
         the channel being closed *)
      Some (if chanInClosed s || senderBlocked s then panic s' else s')
    end
  | StopOut t =>
    match threads s !! t with
    | Some InStop =>
      let s' := mkSystem (worker s) (wpc s) (wait s) (chanInClosed s) true
                         (<[t := Stopped]> (threads s)) (panicked s) in
      Some (if chanOutClosed s || isSendOut (wpc s) then panic s' else s')
    | _ => None
    end
  | WorkerSeesClosed =>
    match wpc s with
    | Select =>
      if chanInClosed s
      then Some (resume (loopBody RecvClosed (mkOutcomes (inr "") None None) (worker s)) s)
      else None
    | _ => None
    end
  | ReplyClosed c =>
    match threads s !! c with
    | Some AtRecvOut =>
      if chanOutClosed s then Some (setThread c (Returned None) s) else None
    | _ => None
    end
  end.

Fixpoint run (evs : list event) (s : System) : option System :=
  match evs with
  | [] => Some s
  | ev :: evs =>
    match step ev s with
    | Some s' => run evs s'
    | None => None
    end
  end.
End Service.

(** ** Vocabulary of the statements *)

(** An attachement as a file under its own Filename. *)
Definition toFile (a : EmailAttachement) : Mail.file :=
  Mail.mkFile (Filename a) (Content a).

(** The file go-mail holds for an attachement: the base of its name and its
    bytes. *)
Definition baseFile (a : EmailAttachement) : Mail.file :=
  Mail.mkFile (Filepath.Base (Filename a)) (Content a).

(** Values of printable ASCII characters and tabs, and names with a
    separator in them. *)
Definition printable (a : ascii) : bool :=
  ((N_of_ascii a =? 9) || (32 <=? N_of_ascii a) && (N_of_ascii a <=? 126))%N.

Definition allPrintable (v : string) : bool :=
  forallb printable (list_ascii_of_string v).

Definition hasSeparator (name : string) : bool :=
  existsb Filepath.isPathSeparator (list_ascii_of_string name).

Definition isRecv (x : wevent) : bool :=
  match x with WRecv _ => true | _ => false end.
Definition isEmit (x : wevent) : bool :=
  match x with WEmit _ => true | _ => false end.
Definition isSend (x : wevent) : bool :=
  match x with WSend _ _ _ => true | _ => false end.
Definition isFailedDial (x : wevent) : bool :=
  match x with WDial (inr _) => true | _ => false end.

(** Messages received, responses taken from the goroutine, dials that
    failed. *)
Definition received (tr : list wevent) : nat := length (List.filter isRecv tr).
Definition emitted (tr : list wevent) : nat := length (List.filter isEmit tr).
Definition sent (tr : list wevent) : nat := length (List.filter isSend tr).
Definition failedDials (tr : list wevent) : nat := length (List.filter isFailedDial tr).

(** A response the goroutine is offering right now. *)
Definition pending (pc : worker_pc) : nat := if isSendOut pc then 1%nat else 0%nat.

(** The result of the most recent dial of a history. *)
Fixpoint lastDial (tr : list wevent) : option (SendCloser + string) :=
  match tr with
  | [] => None
  | x :: tr =>
    match lastDial tr, x with
    | Some r, _ => Some r
    | None, WDial r => Some r
    | None, _ => None
    end
  end.

Definition dialError (r : SendCloser + string) : Go.error :=
  match r with inl _ => None | inr err => Some err end.

Definition healthOf (tr : list wevent) : Go.error :=
  match lastDial tr with
  | None => None
  | Some r => dialError r
  end.

Definition isCall (ev : event) : bool :=
  match ev with Call _ _ => true | _ => false end.
Definition isHandoff (ev : event) : bool :=
  match ev with Handoff _ _ => true | _ => false end.

Definition handoffs (evs : list event) : nat := length (List.filter isHandoff evs).

(** Steps of a stretch in which every send succeeds and the idle timer does
    not fire. *)
Definition calm (ev : event) : bool :=
  match ev with
  | Handoff _ o => bool_decide (send o = None)
  | Timer _ => false
  | _ => true
  end.

(** History entries of such a stretch on connection [k]: no dial, no close,
    no error, every send on [k]. *)
Definition quiet (k : SendCloser) (x : wevent) : bool :=
  match x with
  | WRecv _ => true
  | WSend k' _ r => bool_decide (k' = k) && bool_decide (r = None)
  | WEmit e => bool_decide (e = None)
  | WDial _ | WClose _ _ => false
  end.

(** What the idle close writes to the log. *)
Definition closeWarning (r : Go.error) : list (level * string) :=
  match r with
  | Some err => [(Warn, String.append "Can't close smtp connection: " err)]
  | None => []
  end.

(** States in which an open connection has a closer, a response carrying an
    error is only offered with the connection closed, and channelOut is
    closed only after channelIn, by a thread that is inside Stop. *)
Definition consistent (s : System) : Prop :=
  (open (worker s) = true → is_Some (closer (worker s))) ∧
  (∀ err, wpc s = SendOut (Some err) → open (worker s) = false) ∧
  (chanOutClosed s = true → chanInClosed s = true) ∧
  (∀ t, threads s !! t = Some InStop → chanInClosed s = true) ∧
  wpc s ≠ Panicked.

(** Every message received is answered, is being answered, or met a failed
    dial. *)
Definition balanced (s : System) : Prop :=
  received (trace (worker s))
  = (emitted (trace (worker s)) + failedDials (trace (worker s)) + pending (wpc s))%nat.

(** What stays true once a dial has failed with [err] for the only caller
    [c], as long as nobody else calls: nothing is offered to [c]. *)
Definition stranded (c : nat) (err : string) (s : System) : Prop :=
  error (worker s) = Some err ∧
  open (worker s) = false ∧
  (wpc s = Select ∨ wpc s = Exited) ∧
  emitted (trace (worker s)) = 0%nat ∧
  (∀ t p, threads s !! t = Some p → isAtSendIn p = false) ∧
  (threads s !! c = Some AtRecvOut ∨
   (chanOutClosed s = true ∧ threads s !! c = Some (Returned None))).

(** ** Vocabulary of the further properties *)

(** An Email with other attachements, an attachement with another MIME
    type. *)
Definition withAttachements (l : option (list EmailAttachement)) (m : Email) : Email :=
  mkEmail (From m) (To m) (Subject m) (BodyPlain m) (BodyHTML m) l.

Definition withMimetype (mt : string) (a : EmailAttachement) : EmailAttachement :=
  mkEmailAttachement (Filename a) mt (Embedded a) (Content a).

Definition isTimer (ev : event) : bool :=
  match ev with Timer _ => true | _ => false end.
Definition isStop (ev : event) : bool :=
  match ev with Stop _ => true | _ => false end.
Definition isCallNil (ev : event) : bool :=
  match ev with CallNil _ => true | _ => false end.

(** Steps after which the goroutine has entered the select anew or is on
    its way to it: a loop turn, or a response taken. *)
Definition endsTurn (ev : event) : bool :=
  match ev with Handoff _ _ | Reply _ | Timer _ => true | _ => false end.



(** The connection a history entry leaves open, given the one open before
    it. *)
Definition connAfter (conn : option SendCloser) (x : wevent) : option SendCloser :=
  match x with
  | WDial (inl k) => Some k
  | WDial (inr _) => None
  | WClose _ _ => None
  | _ => conn
  end.

(** An entry that respects the connection: a dial only with none open, a
    send or a close only on the open one. *)
Definition inOrder (conn : option SendCloser) (x : wevent) : bool :=
  match x with
  | WDial _ => bool_decide (conn = None)
  | WSend k _ _ => bool_decide (conn = Some k)
  | WClose k _ => bool_decide (conn = Some k)
  | _ => true
  end.

Fixpoint orderly (conn : option SendCloser) (tr : list wevent) : bool :=
  match tr with
  | [] => true
  | x :: tr => inOrder conn x && orderly (connAfter conn x) tr
  end.

(** The connection open at the end of a history. *)
Definition connOf (tr : list wevent) : option SendCloser :=
  fold_left connAfter tr None.

(** The connection the goroutine holds open. *)
Definition held (w : Worker) : option SendCloser :=
  if open w then closer w else None.

(** A SendEmail call that waits at the receive from channelOut, or has got
    nil from the closed channel, while the goroutine offers nothing. *)
Definition leftWaiting (c : nat) (s : System) : Prop :=
  (wpc s = Select ∨ wpc s = Exited) ∧
  (threads s !! c = Some AtRecvOut ∨
   (chanOutClosed s = true ∧ threads s !! c = Some (Returned None))).

(** ** Tactics *)

Ltac unfold_turn :=
  unfold resume, loopBody, onMessage, onIdle, sendMessage, dialIfClosed,
         setThread, panic, note, setOpen, setCloser, setError, logf in *.

(** Case analysis of an enabled step. *)
Ltac step_inv H :=
  unfold step in H; unfold_turn; simpl in H;
  repeat (case_match; simplify_eq/=).

Ltac lookup_cases :=
  repeat match goal with
    | H : <[?c := _]> _ !! ?t = _ |- _ =>
        destruct (decide (c = t)) as [->|];
        [rewrite lookup_insert_eq in H | rewrite lookup_insert_ne in H by done];
        simplify_eq
    end.

(** * Composition of the message *)

Lemma addAttachement_header msg a :
  Mail.header (addAttachement msg a) = Mail.header msg.
Proof. unfold addAttachement. by destruct (Embedded a). Qed.

Lemma addAttachement_parts msg a :
  Mail.parts (addAttachement msg a) = Mail.parts msg.
Proof. unfold addAttachement. by destruct (Embedded a). Qed.

Lemma fold_addAttachement_header l : ∀ msg,
  Mail.header (fold_left addAttachement l msg) = Mail.header msg.
Proof.
  induction l as [|a l IH]; intros msg; simpl; [done|].
  by rewrite IH, addAttachement_header.
Qed.

Lemma fold_addAttachement_parts l : ∀ msg,
  Mail.parts (fold_left addAttachement l msg) = Mail.parts msg.
Proof.
  induction l as [|a l IH]; intros msg; simpl; [done|].
  by rewrite IH, addAttachement_parts.
Qed.

Lemma fold_addAttachement_embedded l : ∀ msg,
  Mail.embedded (fold_left addAttachement l msg)
  = Mail.embedded msg ++ map baseFile (List.filter Embedded l).
Proof.
  induction l as [|a l IH]; intros msg; simpl.
  - by rewrite app_nil_r.
  - rewrite IH. unfold addAttachement.
    destruct (Embedded a); simpl; [|done].
    by rewrite <- app_assoc.
Qed.

Lemma fold_addAttachement_attachments l : ∀ msg,
  Mail.attachments (fold_left addAttachement l msg)
  = Mail.attachments msg ++ map baseFile (List.filter (λ a, negb (Embedded a)) l).
Proof.
  induction l as [|a l IH]; intros msg; simpl.
  - by rewrite app_nil_r.
  - rewrite IH. unfold addAttachement.
    destruct (Embedded a); simpl; [done|].
    by rewrite <- app_assoc.
Qed.

Lemma addAttachements_header m msg :
  Mail.header (addAttachements m msg) = Mail.header msg.
Proof.
  unfold addAttachements. destruct (Attachements m); [|done].
  apply fold_addAttachement_header.
Qed.

Lemma addAttachements_parts m msg :
  Mail.parts (addAttachements m msg) = Mail.parts msg.
Proof.
  unfold addAttachements. destruct (Attachements m); [|done].
  apply fold_addAttachement_parts.
Qed.

Lemma setBodyPlain_header m msg :
  Mail.header (setBodyPlain m msg) = Mail.header msg.
Proof. unfold setBodyPlain. by destruct (isEmpty _). Qed.

Lemma setBodyHTML_header m msg :
  Mail.header (setBodyHTML m msg) = Mail.header msg.
Proof. unfold setBodyHTML. by destruct (isEmpty _). Qed.

Lemma composeMessage_header cfg m :
  Mail.header (composeMessage cfg m)
  = <["Subject" := [Mime.Encode (Subject m)]]>
      (<["To" := [Mime.Encode (To m)]]> {["From" := [Mime.Encode (sender cfg m)]]}).
Proof.
  unfold composeMessage.
  rewrite addAttachements_header, setBodyHTML_header, setBodyPlain_header.
  simpl. by rewrite insert_empty.
Qed.

Lemma composeMessage_files cfg m :
  Mail.embedded (composeMessage cfg m)
  = map baseFile (List.filter Embedded (default [] (Attachements m))) ∧
  Mail.attachments (composeMessage cfg m)
  = map baseFile (List.filter (λ a, negb (Embedded a)) (default [] (Attachements m))).
Proof.
  unfold composeMessage, addAttachements.
  destruct (Attachements m) as [l|]; simpl.
  - rewrite fold_addAttachement_embedded, fold_addAttachement_attachments.
    unfold setBodyHTML, setBodyPlain.
    by destruct (isEmpty (BodyHTML m)), (isEmpty (BodyPlain m)).
  - unfold setBodyHTML, setBodyPlain.
    by destruct (isEmpty (BodyHTML m)), (isEmpty (BodyPlain m)).
Qed.

(** The header encoder leaves printable values alone. *)
Lemma needsEncoding_printable v :
  forallb printable (list_ascii_of_string v) = true → Mime.needsEncoding v = false.
Proof.
  induction v as [|a v IH]; simpl; [done|].
  intros [Ha Hv]%andb_true_iff. rewrite (IH Hv), orb_false_r.
  unfold printable in Ha. unfold Mime.needsEncodingByte.
  destruct (N.eqb_spec (N_of_ascii a) 9) as [->|Hne]; [done|].
  simpl in Ha. apply andb_true_iff in Ha as [Hlo Hhi].
  apply N.leb_le in Hlo, Hhi.
  rewrite (proj2 (N.ltb_ge _ _) Hlo), (proj2 (N.ltb_ge _ _) Hhi). done.
Qed.

Lemma Encode_printable v : allPrintable v = true → Mime.Encode v = v.
Proof.
  intros H. unfold Mime.Encode. by rewrite (needsEncoding_printable v H).
Qed.

(** [filepath.Base] leaves a name without separator alone. *)
Lemma lastElement_plain l : ∀ acc,
  existsb Filepath.isPathSeparator l = false → Filepath.lastElement acc l = acc ++ l.
Proof.
  induction l as [|a l IH]; intros acc H; simpl in *.
  - by rewrite app_nil_r.
  - apply orb_false_iff in H as [Ha Hl]. rewrite Ha, IH by done.
    by rewrite <- app_assoc.
Qed.

Lemma dropSeparators_plain l :
  existsb Filepath.isPathSeparator l = false → Filepath.dropSeparators l = l.
Proof.
  destruct l as [|a l]; simpl; [done|].
  intros [Ha _]%orb_false_iff. by rewrite Ha.
Qed.

Lemma existsb_reverse {A} (f : A → bool) l : existsb f (rev l) = existsb f l.
Proof.
  induction l as [|a l IH]; simpl; [done|].
  rewrite existsb_app, IH. simpl. rewrite orb_false_r. apply orb_comm.
Qed.

Lemma Base_plain name :
  name ≠ "" → hasSeparator name = false → Filepath.Base name = name.
Proof.
  intros Hne Hs. unfold Filepath.Base, hasSeparator in *.
  rewrite bool_decide_eq_false_2 by done.
  rewrite dropSeparators_plain by (by rewrite existsb_reverse).
  rewrite rev_involutive, lastElement_plain by done. simpl.
  destruct (list_ascii_of_string name) as [|a l] eqn:E.
  - destruct name; [done | discriminate E].
  - transitivity (string_of_list_ascii (list_ascii_of_string name));
      [by rewrite E | apply string_of_list_ascii_of_string].
Qed.

(** C7: an Email whose From is empty is composed with the configured
    default sender (smtp_from) as its From header, and an Email whose From is
    not empty with that field, in both cases as go-mail's header encoder
    leaves the value: a value of printable ASCII characters and tabs
    unchanged, any other value as Q-encoded words. *)
Theorem SendEmail_from_header (cfg : Config) (m : Email) :
  (From m = "" →
   Mail.header (composeMessage cfg m) !! "From" = Some [Mime.Encode (smtpFrom cfg)]) ∧
  (From m ≠ "" →
   Mail.header (composeMessage cfg m) !! "From" = Some [Mime.Encode (From m)]) ∧
  (From m = "" → allPrintable (smtpFrom cfg) = true →
   Mail.header (composeMessage cfg m) !! "From" = Some [smtpFrom cfg]) ∧
  (From m ≠ "" → allPrintable (From m) = true →
   Mail.header (composeMessage cfg m) !! "From" = Some [From m]).
Proof.
  rewrite composeMessage_header.
  rewrite !lookup_insert_ne by done. rewrite lookup_singleton_eq.
  unfold sender, isEmpty. repeat split; intros H.
  - by rewrite bool_decide_eq_true_2.
  - by rewrite bool_decide_eq_false_2.
  - intros Hp. by rewrite bool_decide_eq_true_2, Encode_printable.
  - intros Hp. by rewrite bool_decide_eq_false_2, Encode_printable.
Qed.

Lemma SendEmail_from_header_witness :
  Mail.header (composeMessage (mkConfig "mx" 25 "" "" "noreply@example.org")
                 (mkEmail "" "bob@example.org" "hi" "text" "" None)) !! "From"
  = Some ["noreply@example.org"] ∧
  Mail.header (composeMessage (mkConfig "mx" 25 "" "" "noreply@example.org")
                 (mkEmail "amy@example.org" "bob@example.org" "hi" "text" "" None)) !! "From"
  = Some ["amy@example.org"].
Proof.
  split.
  - apply (SendEmail_from_header
             (mkConfig "mx" 25 "" "" "noreply@example.org")
             (mkEmail "" "bob@example.org" "hi" "text" "" None)).
    + reflexivity.
    + reflexivity.
  - apply (SendEmail_from_header
             (mkConfig "mx" 25 "" "" "noreply@example.org")
             (mkEmail "amy@example.org" "bob@example.org" "hi" "text" "" None)).
    + simpl. discriminate.
    + reflexivity.
Defined.

Lemma SendEmail_from_header_encoded :
  Mail.header (composeMessage defaultConfig
                 (mkEmail "Zoë <zoe@example.org>" "bob@example.org" "hi" "text" "" None))
    !! "From"
  = Some ["=?UTF-8?q?Zo=C3=AB_<zoe@example.org>?="] ∧
  Mail.header (composeMessage defaultConfig
                 (mkEmail "Zoë <zoe@example.org>" "bob@example.org" "hi" "text" "" None))
    !! "From"
  ≠ Some ["Zoë <zoe@example.org>"].
Proof.
  assert (H : Mail.header (composeMessage defaultConfig
                 (mkEmail "Zoë <zoe@example.org>" "bob@example.org" "hi" "text" "" None))
                !! "From"
              = Some ["=?UTF-8?q?Zo=C3=AB_<zoe@example.org>?="])
    by (vm_compute; reflexivity).
  split; [exact H|]. rewrite H. discriminate.
Qed.

(** C8: every attachement of the Email is in the composed message, the ones
    flagged Embedded as embedded files and all others as attached files, in
    the order of the list, each with its content and under the base of its
    Filename (the last element of the path; an empty name becomes a dot). An
    attachement whose Filename is not empty and has no separator keeps its
    Filename. *)
Theorem SendEmail_attachements (cfg : Config) (m : Email) (l : list EmailAttachement) :
  Attachements m = Some l →
  Mail.embedded (composeMessage cfg m) = map baseFile (List.filter Embedded l) ∧
  Mail.attachments (composeMessage cfg m)
  = map baseFile (List.filter (λ a, negb (Embedded a)) l) ∧
  (∀ a, In a l →
     if Embedded a
     then In (Mail.mkFile (Filepath.Base (Filename a)) (Content a))
             (Mail.embedded (composeMessage cfg m))
     else In (Mail.mkFile (Filepath.Base (Filename a)) (Content a))
             (Mail.attachments (composeMessage cfg m))) ∧
  (∀ a, In a l → Filename a ≠ "" → hasSeparator (Filename a) = false →
     if Embedded a
     then In (Mail.mkFile (Filename a) (Content a)) (Mail.embedded (composeMessage cfg m))
     else In (Mail.mkFile (Filename a) (Content a))
             (Mail.attachments (composeMessage cfg m))).
Proof.
  intros Hl. destruct (composeMessage_files cfg m) as [He Ha].
  rewrite Hl in He, Ha. simpl in He, Ha. rewrite He, Ha.
  split; [done|]. split; [done|].
  assert (Hin : ∀ a, In a l →
            if Embedded a
            then In (baseFile a) (map baseFile (List.filter Embedded l))
            else In (baseFile a)
                    (map baseFile (List.filter (λ a, negb (Embedded a)) l))).
  { intros a Hin. destruct (Embedded a) eqn:E.
    - apply (in_map baseFile). apply filter_In. by split.
    - apply (in_map baseFile). apply filter_In. split; [done|]. by rewrite E. }
  split; [exact Hin|].
  intros a Ha' Hne Hs. specialize (Hin a Ha'). unfold baseFile in Hin.
  by rewrite (Base_plain (Filename a) Hne Hs) in Hin.
Qed.

Lemma SendEmail_attachements_witness :
  let logo := mkEmailAttachement "logo.png" "image/png" true [Byte.x89; Byte.x50] in
  let bill := mkEmailAttachement "docs/bill.pdf" "application/pdf" false [Byte.x25] in
  let msg := composeMessage defaultConfig
               (mkEmail "amy@example.org" "bob@example.org" "hi" "text" ""
                        (Some [logo; bill])) in
  Mail.embedded msg = [Mail.mkFile "logo.png" [Byte.x89; Byte.x50]] ∧
  Mail.attachments msg = [Mail.mkFile "bill.pdf" [Byte.x25]].
Proof.
  intros logo bill msg.
  destruct (SendEmail_attachements defaultConfig
              (mkEmail "amy@example.org" "bob@example.org" "hi" "text" ""
                       (Some [logo; bill]))
              [logo; bill] eq_refl) as (He & Ha & _).
  split; [exact He | exact Ha].
Defined.

Lemma SendEmail_attachements_renamed :
  Mail.attachments
    (composeMessage defaultConfig
       (mkEmail "amy@example.org" "bob@example.org" "hi" "text" ""
          (Some [mkEmailAttachement "docs/bill.pdf" "application/pdf" false [Byte.x25]])))
  = [Mail.mkFile "bill.pdf" [Byte.x25]] ∧
  ¬ In (Mail.mkFile "docs/bill.pdf" [Byte.x25])
       (Mail.attachments
          (composeMessage defaultConfig
             (mkEmail "amy@example.org" "bob@example.org" "hi" "text" ""
                (Some [mkEmailAttachement "docs/bill.pdf" "application/pdf" false
                         [Byte.x25]])))).
Proof.
  assert (H : Mail.attachments
                (composeMessage defaultConfig
                   (mkEmail "amy@example.org" "bob@example.org" "hi" "text" ""
                      (Some [mkEmailAttachement "docs/bill.pdf" "application/pdf" false
                               [Byte.x25]])))
              = [Mail.mkFile "bill.pdf" [Byte.x25]])
    by (vm_compute; reflexivity).
  split; [exact H|]. rewrite H. simpl. intros [Heq|[]]. discriminate Heq.
Qed.

(** C9: when both BodyPlain and BodyHTML are non-empty, the plain body is
    set first and the HTML body second, and the second SetBody replaces the
    first: the composed message has the HTML body as its only part. *)
Theorem SendEmail_html_replaces_plain (cfg : Config) (m : Email) :
  BodyPlain m ≠ "" →
  BodyHTML m ≠ "" →
  Mail.parts (setBodyPlain m (setHeaders cfg m Mail.NewMessage))
  = [Mail.mkPart "text/plain" (BodyPlain m)] ∧
  Mail.parts (composeMessage cfg m) = [Mail.mkPart "text/html" (BodyHTML m)].
Proof.
  intros Hp Hh. unfold composeMessage.
  rewrite addAttachements_parts.
  unfold setBodyHTML, setBodyPlain, isEmpty.
  rewrite !bool_decide_eq_false_2 by done. done.
Qed.

Lemma SendEmail_html_replaces_plain_witness :
  Mail.parts (composeMessage defaultConfig
                (mkEmail "amy@example.org" "bob@example.org" "hi" "plain" "<p>html</p>" None))
  = [Mail.mkPart "text/html" "<p>html</p>"].
Proof.
  apply (SendEmail_html_replaces_plain defaultConfig
           (mkEmail "amy@example.org" "bob@example.org" "hi" "plain" "<p>html</p>" None));
    simpl; discriminate.
Defined.

(** * The service as a transition system *)

Lemma run_invariant cfg (P : System → Prop) :
  (∀ ev s s', P s → step cfg ev s = Some s' → P s') →
  ∀ evs s s', P s → run cfg evs s = Some s' → P s'.
Proof.
  intros Hstep evs. induction evs as [|ev evs IH]; intros s s' HP Hrun; simpl in Hrun.
  - by simplify_eq.
  - destruct (step cfg ev s) as [s1|] eqn:E; [|done]. eauto.
Qed.

Lemma run_app cfg evs1 : ∀ evs2 s,
  run cfg (evs1 ++ evs2) s
  = match run cfg evs1 s with Some s1 => run cfg evs2 s1 | None => None end.
Proof.
  induction evs1 as [|ev evs1 IH]; intros evs2 s; simpl; [done|].
  destruct (step cfg ev s); [apply IH | done].
Qed.

Lemma step_consistent cfg ev s s' :
  consistent s → step cfg ev s = Some s' → consistent s'.
Proof.
  intros (Hc & He & Hcl & Hst & Hp) H. unfold consistent.
  destruct ev; step_inv H; simpl in *;
    try (destruct Hc as [? ?]; [done|]; simplify_eq);
    repeat split; intros; simplify_eq; lookup_cases; eauto; congruence.
Qed.

Lemma initial_consistent : consistent initial.
Proof. repeat split; simpl; intros; try done. Qed.

Lemma reachable_consistent cfg evs s :
  run cfg evs initial = Some s → consistent s.
Proof.
  apply (run_invariant cfg consistent); [|apply initial_consistent].
  intros ev s1 s2. apply step_consistent.
Qed.

Lemma Health_error s : Health s = error (worker s).
Proof. unfold Health. by destruct (error (worker s)). Qed.

Lemma lastDial_app tr : ∀ new,
  lastDial (tr ++ new)
  = match lastDial new with Some r => Some r | None => lastDial tr end.
Proof.
  induction tr as [|x tr IH]; intros new; simpl.
  - by destruct (lastDial new).
  - rewrite IH. by destruct (lastDial new).
Qed.

Lemma healthOf_app tr new :
  healthOf (tr ++ new)
  = match lastDial new with Some r => dialError r | None => healthOf tr end.
Proof. unfold healthOf. rewrite lastDial_app. by destruct (lastDial new). Qed.

Lemma received_app tr new : received (tr ++ new) = (received tr + received new)%nat.
Proof. unfold received. by rewrite List.filter_app, length_app. Qed.
Lemma emitted_app tr new : emitted (tr ++ new) = (emitted tr + emitted new)%nat.
Proof. unfold emitted. by rewrite List.filter_app, length_app. Qed.
Lemma failedDials_app tr new : failedDials (tr ++ new) = (failedDials tr + failedDials new)%nat.
Proof. unfold failedDials. by rewrite List.filter_app, length_app. Qed.
Lemma sent_app tr new : sent (tr ++ new) = (sent tr + sent new)%nat.
Proof. unfold sent. by rewrite List.filter_app, length_app. Qed.

Lemma step_health cfg ev s s' :
  step cfg ev s = Some s' →
  Health s' = match ev with
              | Handoff _ o => if open (worker s) then Health s else dialError (dial o)
              | _ => Health s
              end.
Proof.
  intros H. rewrite !Health_error.
  destruct ev; step_inv H; simpl in *; try done.
Qed.

Lemma step_health_trace cfg ev s s' :
  Health s = healthOf (trace (worker s)) →
  step cfg ev s = Some s' →
  Health s' = healthOf (trace (worker s')).
Proof.
  intros Hinv H. rewrite Health_error in *.
  destruct ev; step_inv H; simpl in *; rewrite ?healthOf_app; simpl; try done.
Qed.

Lemma step_balanced cfg ev s s' :
  consistent s → balanced s → step cfg ev s = Some s' → balanced s'.
Proof.
  intros (Hc & _) Hb H. unfold balanced in *.
  destruct ev; step_inv H; simpl in *;
    try (destruct Hc as [? ?]; [done|]; simplify_eq);
    rewrite ?received_app, ?emitted_app, ?failedDials_app;
    set (nr := received (trace (worker s))) in *;
    set (ne := emitted (trace (worker s))) in *;
    set (nf := failedDials (trace (worker s))) in *;
    unfold pending, received, emitted, failedDials in *; simpl in *; lia.
Qed.

Lemma run_invariant_where cfg (Q : event → Prop) (P : System → Prop) :
  (∀ ev s s', Q ev → P s → step cfg ev s = Some s' → P s') →
  ∀ evs s s', Forall Q evs → P s → run cfg evs s = Some s' → P s'.
Proof.
  intros Hstep evs. induction evs as [|ev evs IH]; intros s s' HQ HP Hrun; simpl in Hrun.
  - by simplify_eq.
  - destruct (step cfg ev s) as [s1|] eqn:E; [|done].
    inversion HQ; subst. eauto.
Qed.

Lemma step_Call cfg c m s :
  panicked s = false → chanInClosed s = false → threads s !! c = None →
  step cfg (Call c m) s = Some (setThread c (AtSendIn (composeMessage cfg m)) s).
Proof. intros Hp Hc Ht. unfold step. rewrite Hp, Ht. simpl. by rewrite Hc. Qed.

Lemma step_Handoff cfg c o msg s :
  panicked s = false → chanInClosed s = false → wpc s = Select →
  threads s !! c = Some (AtSendIn msg) →
  step cfg (Handoff c o) s
  = Some (resume (loopBody (RecvMsg msg) o (worker s)) (setThread c AtRecvOut s)).
Proof. intros Hp Hc Hpc Ht. unfold step. by rewrite Hp, Hpc, Ht, Hc. Qed.

Lemma step_Reply cfg c e s :
  panicked s = false → chanOutClosed s = false → wpc s = SendOut e →
  threads s !! c = Some AtRecvOut →
  step cfg (Reply c) s
  = Some (resume (note [WEmit e] (worker s), Continue) (setThread c (Returned e) s)).
Proof. intros Hp Hc Hpc Ht. unfold step. by rewrite Hp, Hpc, Ht, Hc. Qed.

Lemma step_Tick cfg d s :
  panicked s = false → 0 ≤ d → wpc s = Select →
  step cfg (Tick d) s
  = Some (mkSystem (worker s) Select (wait s + d) (chanInClosed s)
                   (chanOutClosed s) (threads s) false).
Proof.
  intros Hp Hd Hpc. unfold step. rewrite Hp, Hpc.
  by rewrite bool_decide_eq_true_2.
Qed.

Lemma step_Timer cfg o s :
  panicked s = false → wpc s = Select → idleTimeout ≤ wait s →
  step cfg (Timer o) s = Some (resume (loopBody TimerFired o (worker s)) s).
Proof.
  intros Hp Hpc Hw. unfold step. rewrite Hp, Hpc.
  by rewrite bool_decide_eq_true_2.
Qed.

Lemma step_stranded cfg c err ev s s' :
  isCall ev = false → stranded c err s → step cfg ev s = Some s' → stranded c err s'.
Proof.
  intros Hev (He & Ho & Hpc & Hem & Hno & Hc) H. unfold stranded.
  destruct ev; try discriminate Hev.
  - (* CallNil *)
    step_inv H; simpl; done.
  - (* Handoff *)
    step_inv H;
      match goal with
      | Hl : threads s !! _ = Some (AtSendIn _) |- _ => by apply Hno in Hl
      end.
  - (* Reply *)
    step_inv H; destruct Hpc; congruence.
  - (* Tick *)
    step_inv H; simpl; done.
  - (* Timer *)
    step_inv H; simpl in *; try congruence. done.
  - (* Stop *)
    step_inv H; simpl in *.
    all: repeat split; try done.
    all: try (intros t' p Hl; lookup_cases; eauto).
    all: rewrite lookup_insert_ne; [done|]; intros ->; destruct Hc as [?|[_ ?]]; congruence.
  - (* StopOut *)
    step_inv H; simpl in *.
    all: repeat split; try done.
    all: try (intros t' p Hl; lookup_cases; eauto).
    all: rewrite lookup_insert_ne; [|intros ->; destruct Hc as [?|[_ ?]]; congruence].
    all: destruct Hc as [?|[_ ?]]; [by left | by right].
  - (* WorkerSeesClosed *)
    step_inv H; simpl in *. repeat split; try done. by right.
  - (* ReplyClosed *)
    step_inv H; simpl in *.
    repeat split; try done.
    + intros t' p Hl; lookup_cases; eauto.
    + destruct (decide (c0 = c)) as [->|Hne].
      * right. by rewrite lookup_insert_eq.
      * rewrite lookup_insert_ne by done. done.
Qed.

(** C1 (the code does not do this): when the dial for a caller's message
    fails, the goroutine records the error, which Health then reports, and
    goes back to the select without sending on channelOut. As long as no
    other thread calls SendEmail, no response is ever taken from the
    goroutine and none is on offer: the caller stays blocked at the receive
    from channelOut, or gets nil once Stop has closed that channel. It never
    gets the dial error. *)
Theorem dial_failure_strands_caller cfg (c : nat) (m : Email) (o : Outcomes)
    (err : string) (evs : list event) (s : System) :
  dial o = inr err →
  Forall (λ ev, isCall ev = false) evs →
  run cfg (Call c m :: Handoff c o :: evs) initial = Some s →
  Health s = Some err ∧
  open (worker s) = false ∧
  emitted (trace (worker s)) = 0%nat ∧
  step cfg (Reply c) s = None ∧
  (threads s !! c = Some AtRecvOut ∨
   (chanOutClosed s = true ∧ threads s !! c = Some (Returned None))).
Proof.
  intros Hd Hevs Hrun.
  change (Call c m :: Handoff c o :: evs) with ([Call c m; Handoff c o] ++ evs) in Hrun.
  rewrite run_app in Hrun.
  destruct (run cfg [Call c m; Handoff c o] initial) as [s1|] eqn:E1; [|done].
  assert (Hs1 : stranded c err s1).
  { simpl in E1.
    rewrite step_Call in E1 by done.
    erewrite step_Handoff in E1; [| done | done | done | apply lookup_insert_eq].
    unfold_turn. simpl in E1. rewrite Hd in E1. simplify_eq. unfold stranded; simpl.
    repeat split; try done.
    - by left.
    - intros t p Hl. rewrite insert_insert_eq in Hl. lookup_cases; done.
    - left. by rewrite lookup_insert_eq. }
  assert (Hs : stranded c err s).
  { revert Hs1 Hrun. apply run_invariant_where with (Q := λ ev, isCall ev = false); [|done].
    intros ev sa sb. apply step_stranded. }
  destruct Hs as (He & Ho & Hpc & Hem & Hno & Hc).
  rewrite Health_error. repeat split; try done.
  unfold step. destruct (panicked s); [done|].
  by destruct Hpc as [-> | ->].
Qed.

Lemma dial_failure_strands_caller_witness :
  let m := mkEmail "amy@example.org" "bob@example.org" "hi" "text" "" None in
  let o := mkOutcomes (inr "dial tcp 127.0.0.1:587: connection refused") None None in
  let s := default initial
             (run defaultConfig
                [Call 1%nat m; Handoff 1%nat o; Tick idleTimeout; Timer o; Tick 5]
                initial) in
  Health s = Some "dial tcp 127.0.0.1:587: connection refused" ∧
  open (worker s) = false ∧
  emitted (trace (worker s)) = 0%nat ∧
  step defaultConfig (Reply 1%nat) s = None ∧
  (threads s !! 1%nat = Some AtRecvOut ∨
   (chanOutClosed s = true ∧ threads s !! 1%nat = Some (Returned None))).
Proof.
  intros m o s.
  apply (dial_failure_strands_caller defaultConfig 1%nat m o
           "dial tcp 127.0.0.1:587: connection refused"
           [Tick idleTimeout; Timer o; Tick 5]).
  - reflexivity.
  - repeat constructor.
  - vm_compute. reflexivity.
Defined.

(** * Responses and health *)

Lemma reachable_balanced cfg evs s :
  run cfg evs initial = Some s → consistent s ∧ balanced s.
Proof.
  apply (run_invariant cfg (λ s, consistent s ∧ balanced s)).
  - intros ev s1 s2 [Hc Hb] H. split.
    + by apply (step_consistent cfg ev s1).
    + by apply (step_balanced cfg ev s1).
  - split; [apply initial_consistent | reflexivity].
Qed.

(** C2 (the code does not do this): the goroutine does not answer every
    message it receives. In every state the service reaches, the messages
    received are the responses taken from the goroutine, plus the one it is
    offering, plus the dials that failed: a message whose dial fails gets no
    response, every other message exactly one. After a hand-off the goroutine
    offers the result of the send when a connection is open or the dial
    succeeds, and is back at the select, offering nothing, when the dial
    fails. *)
Theorem responses_miss_failed_dials cfg (evs : list event) (s : System) :
  run cfg evs initial = Some s →
  received (trace (worker s))
  = (emitted (trace (worker s)) + pending (wpc s) + failedDials (trace (worker s)))%nat ∧
  ∀ c o s', step cfg (Handoff c o) s = Some s' →
    wpc s' = if open (worker s) then SendOut (send o)
             else match dial o with
                  | inl _ => SendOut (send o)
                  | inr _ => Select
                  end.
Proof.
  intros Hrun. destruct (reachable_balanced cfg evs s Hrun) as [(Hc & _) Hb].
  split; [unfold balanced in Hb; lia|].
  intros c o s' H. step_inv H; simpl in *; try done;
    destruct Hc as [? ?]; [done|]; simplify_eq.
Qed.

Lemma responses_miss_failed_dials_witness :
  let m := mkEmail "amy@example.org" "bob@example.org" "hi" "text" "" None in
  let o := mkOutcomes (inr "dial tcp 127.0.0.1:587: connection refused") None None in
  let s := default initial (run defaultConfig [Call 1%nat m; Handoff 1%nat o] initial) in
  received (trace (worker s)) = 1%nat ∧
  emitted (trace (worker s)) = 0%nat ∧
  pending (wpc s) = 0%nat ∧
  failedDials (trace (worker s)) = 1%nat.
Proof.
  intros m o s.
  pose proof (responses_miss_failed_dials defaultConfig
                [Call 1%nat m; Handoff 1%nat o] s ltac:(vm_compute; reflexivity)) as [H _].
  repeat split; vm_compute; reflexivity.
Defined.

Lemma reachable_health cfg evs s :
  run cfg evs initial = Some s → Health s = healthOf (trace (worker s)).
Proof.
  apply (run_invariant cfg (λ s, Health s = healthOf (trace (worker s)))); [|done].
  intros ev s1 s2. apply step_health_trace.
Qed.

(** C3: in every state the service reaches, Health returns nil when no dial
    has been attempted or the most recent dial succeeded, and the error of
    the most recent dial otherwise. A step changes what Health returns only
    when it dials: a hand-off with the connection closed sets it to nil if
    the dial succeeds, whatever the send then does, and to the dial error if
    it fails; a hand-off on an open connection, and so a send failure, leaves
    it as it is, like every other step. *)
Theorem Health_is_last_dial cfg (evs : list event) (s : System) :
  run cfg evs initial = Some s →
  Health s = match lastDial (trace (worker s)) with
             | None => None
             | Some (inl _) => None
             | Some (inr err) => Some err
             end ∧
  ∀ ev s', step cfg ev s = Some s' →
    Health s' = match ev with
                | Handoff _ o =>
                  if open (worker s) then Health s
                  else match dial o with inl _ => None | inr err => Some err end
                | _ => Health s
                end.
Proof.
  intros Hrun. split.
  - rewrite (reachable_health cfg evs s Hrun). unfold healthOf, dialError.
    by destruct (lastDial _) as [[?|?]|].
  - intros ev s' H. rewrite (step_health cfg ev s s' H).
    destruct ev; try done.
Qed.

Lemma Health_is_last_dial_witness :
  let m := mkEmail "amy@example.org" "bob@example.org" "hi" "text" "" None in
  let refused := mkOutcomes (inr "connection refused") None None in
  let broken := mkOutcomes (inl 7%nat) (Some "broken pipe") None in
  let s := default initial
             (run defaultConfig
                [Call 1%nat m; Handoff 1%nat refused;
                 Call 2%nat m; Handoff 2%nat broken; Reply 2%nat]
                initial) in
  Health s = None ∧ lastDial (trace (worker s)) = Some (inl 7%nat).
Proof.
  intros m refused broken s.
  destruct (Health_is_last_dial defaultConfig
              [Call 1%nat m; Handoff 1%nat refused;
               Call 2%nat m; Handoff 2%nat broken; Reply 2%nat]
              s ltac:(vm_compute; reflexivity)) as [H _].
  split; [rewrite H|]; vm_compute; reflexivity.
Defined.

(** * Send failure, reuse and the idle timeout *)

Lemma step_closed_stays cfg ev s s' :
  isHandoff ev = false → open (worker s) = false →
  step cfg ev s = Some s' → open (worker s') = false.
Proof.
  intros Hev Ho H. destruct ev; try discriminate Hev; step_inv H; simpl in *; congruence.
Qed.

Lemma Handoff_closed_dials cfg c o s s' :
  open (worker s) = false →
  step cfg (Handoff c o) s = Some s' →
  ∃ msg rest,
    threads s !! c = Some (AtSendIn msg) ∧
    trace (worker s') = trace (worker s) ++ WRecv msg :: WDial (dial o) :: rest.
Proof.
  intros Ho H. step_inv H; simpl in *; try congruence;
    eexists _, _; (split; [done|]);
    rewrite <- ?app_assoc; simpl; reflexivity.
Qed.

(** X17: when the goroutine takes a message with a connection at hand (open
    already, or dialed with success in this turn) and the send fails, it
    closes that connection, sets the connection closed and offers the send
    error on channelOut, where the caller of the message is among the calls
    that can take it. The next message the goroutine takes after that,
    whatever happens in between, is dialed for before anything else. *)
Theorem send_failure_closes_and_redials cfg (evs0 : list event) (s s' : System)
    (c : nat) (o : Outcomes) (err : string) :
  run cfg evs0 initial = Some s →
  step cfg (Handoff c o) s = Some s' →
  (open (worker s) = true ∨ ∃ k, dial o = inl k) →
  send o = Some err →
  (∃ k msg,
     threads s !! c = Some (AtSendIn msg) ∧
     (if open (worker s) then closer (worker s) = Some k else dial o = inl k) ∧
     trace (worker s')
     = trace (worker s)
         ++ WRecv msg :: (if open (worker s) then [] else [WDial (inl k)])
         ++ [WSend k msg (Some err); WClose k (close o)]) ∧
  open (worker s') = false ∧
  wpc s' = SendOut (Some err) ∧
  (∃ s'', step cfg (Reply c) s' = Some s'' ∧
          threads s'' !! c = Some (Returned (Some err)) ∧
          trace (worker s'') = trace (worker s') ++ [WEmit (Some err)] ∧
          open (worker s'') = false) ∧
  ∀ evs s2 c2 o2 s3,
    Forall (λ ev, isHandoff ev = false) evs →
    run cfg evs s' = Some s2 →
    step cfg (Handoff c2 o2) s2 = Some s3 →
    ∃ msg2 rest,
      trace (worker s3) = trace (worker s2) ++ WRecv msg2 :: WDial (dial o2) :: rest.
Proof.
  intros Hreach H Hconn Hsend.
  pose proof (reachable_consistent cfg evs0 s Hreach) as (Hc & _ & Hcl & _ & _).
  assert (Hout : chanOutClosed s = false).
  { destruct (chanOutClosed s) eqn:E; [|done].
    specialize (Hcl eq_refl). step_inv H. }
  assert (Hclosed : open (worker s') = false ∧ wpc s' = SendOut (Some err) ∧
                    panicked s' = false ∧ chanOutClosed s' = false ∧
                    threads s' !! c = Some AtRecvOut).
  { step_inv H; simpl in *; rewrite ?lookup_insert_eq;
      try (destruct Hc as [? ?]; [done|]; simplify_eq);
      try (destruct Hconn as [?|[? ?]]; congruence); done. }
  destruct Hclosed as (Ho' & Hpc' & Hp' & Hout' & Hc').
  split; [|split; [done|split; [done|split]]].
  - step_inv H; simpl in *;
      try (destruct Hc as [? ?]; [done|]; simplify_eq);
      try (destruct Hconn as [?|[? ?]]; congruence);
      eexists _, _; (split; [done|]); (split; [done|]);
      rewrite <- ?app_assoc; reflexivity.
  - eexists. split; [by apply step_Reply|].
    unfold_turn; simpl. by rewrite lookup_insert_eq.
  - intros evs s2 c2 o2 s3 Hevs Hrun H2.
    assert (Ho2 : open (worker s2) = false).
    { apply (run_invariant_where cfg (λ ev, isHandoff ev = false)
               (λ s, open (worker s) = false)) with evs s'; try done.
      intros ev sa sb. apply step_closed_stays. }
    destruct (Handoff_closed_dials cfg c2 o2 s2 s3 Ho2 H2) as (msg2 & rest & _ & Htr).
    eauto.
Qed.

Lemma send_failure_closes_and_redials_witness :
  let m := mkEmail "amy@example.org" "bob@example.org" "hi" "text" "" None in
  let o := mkOutcomes (inl 7%nat) (Some "write: broken pipe") None in
  let s := default initial (run defaultConfig [Call 1%nat m] initial) in
  let s' := default initial (step defaultConfig (Handoff 1%nat o) s) in
  open (worker s') = false ∧
  wpc s' = SendOut (Some "write: broken pipe") ∧
  ∃ s'', step defaultConfig (Reply 1%nat) s' = Some s'' ∧
         threads s'' !! 1%nat = Some (Returned (Some "write: broken pipe")).
Proof.
  intros m o s s'.
  destruct (send_failure_closes_and_redials defaultConfig [Call 1%nat m] s s' 1%nat o
              "write: broken pipe")
    as (_ & Ho & Hpc & (s'' & Hr & Ht & _) & _).
  - vm_compute. reflexivity.
  - vm_compute. reflexivity.
  - right. exists 7%nat. reflexivity.
  - reflexivity.
  - split; [exact Ho|]. split; [exact Hpc|]. exists s''. split; [exact Hr | exact Ht].
Defined.


Lemma step_returned_frozen cfg ev s s' c e :
  step cfg ev s = Some s' →
  threads s !! c = Some (Returned e) → threads s' !! c = Some (Returned e).
Proof.
  intros H Hc. destruct ev; step_inv H; simpl in *; try done;
    (destruct (decide (c0 = c)) as [->|] || destruct (decide (t = c)) as [->|]);
    simplify_eq; by rewrite lookup_insert_ne.
Qed.

Lemma calm_step cfg ev s s' k :
  consistent s → open (worker s) = true → closer (worker s) = Some k →
  calm ev = true →
  step cfg ev s = Some s' →
  open (worker s') = true ∧ closer (worker s') = Some k ∧
  (∃ new, trace (worker s') = trace (worker s) ++ new ∧
          Forall (λ x, quiet k x = true) new ∧
          received new = handoffs [ev] ∧ sent new = handoffs [ev]) ∧
  (∀ c e, threads s' !! c = Some (Returned e) →
          threads s !! c ≠ Some (Returned e) → e = None).
Proof.
  intros (_ & He & _) Ho Hk Hev H.
  destruct ev; try discriminate Hev; step_inv H; simpl in *;
    try congruence;
    try (apply bool_decide_eq_true_1 in Hev);
    simplify_eq;
    try match goal with
      | Hpc : wpc s = SendOut ?e |- _ =>
          assert (e = None) as ->
            by (destruct e as [err|]; [specialize (He err eq_refl); congruence | done])
      end;
    (split; [done|]); (split; [done|]); split.
  all: try (intros c' e' Hl Hn; lookup_cases; done).
  all: try (eexists; split; [rewrite <- ?app_assoc; reflexivity|];
            split; [|done]; repeat constructor; simpl;
            by rewrite ?bool_decide_eq_true_2).
  all: exists []; split; [by rewrite app_nil_r|]; split; [constructor | done].
Qed.

Lemma calm_run cfg k evs : ∀ s s',
  consistent s → open (worker s) = true → closer (worker s) = Some k →
  Forall (λ ev, calm ev = true) evs →
  run cfg evs s = Some s' →
  open (worker s') = true ∧ closer (worker s') = Some k ∧
  (∃ new, trace (worker s') = trace (worker s) ++ new ∧
          Forall (λ x, quiet k x = true) new ∧
          received new = handoffs evs ∧ sent new = handoffs evs) ∧
  (∀ c e, threads s' !! c = Some (Returned e) →
          threads s !! c ≠ Some (Returned e) → e = None).
Proof.
  induction evs as [|ev evs IH]; intros s s' Hcons Ho Hk Hevs Hrun; simpl in Hrun.
  - simplify_eq. split; [done|]. split; [done|]. split; [|done].
    exists []. by rewrite app_nil_r.
  - destruct (step cfg ev s) as [s1|] eqn:E; [|done].
    inversion Hevs as [|? ? Hev Hevs']; subst.
    destruct (calm_step cfg ev s s1 k Hcons Ho Hk Hev E)
      as (Ho1 & Hk1 & (new1 & Htr1 & Hq1 & Hr1 & Hs1) & Hret1).
    destruct (IH s1 s' (step_consistent cfg ev s s1 Hcons E) Ho1 Hk1 Hevs' Hrun)
      as (Ho' & Hk' & (new & Htr & Hq & Hr & Hs) & Hret).
    split; [done|]. split; [done|]. split.
    + exists (new1 ++ new). split; [by rewrite Htr, Htr1, app_assoc|].
      split; [by apply Forall_app|].
      rewrite received_app, sent_app, Hr, Hs, Hr1, Hs1.
      unfold handoffs. simpl. by destruct (isHandoff ev).
    + intros c e Hl Hn.
      destruct (threads s1 !! c) as [[| |e1| |]|] eqn:E1;
        try (apply (Hret c e Hl); congruence).
      pose proof (run_invariant cfg (λ s, threads s !! c = Some (Returned e1))
                    (λ ev sa sb Ha Hb, step_returned_frozen cfg ev sa sb c e1 Hb Ha)
                    evs s1 s' E1 Hrun) as Hfr.
      simpl in Hfr. assert (e1 = e) as -> by congruence.
      by apply (Hret1 c e).
Qed.

Lemma quiet_no_failed_dial k new :
  Forall (λ x, quiet k x = true) new → failedDials new = 0%nat.
Proof.
  induction 1 as [|x new Hx _ IH]; [done|].
  unfold failedDials in *. destruct x; simpl in *; try done.
Qed.

(** X18: over any stretch of steps that starts with the connection open, in
    which every send succeeds and the idle timer does not fire, the
    connection stays open and stays the same one, the goroutine neither
    dials nor closes, every message received is sent on that connection, for
    every message received one response is taken from the goroutine or on
    offer at the end, and every response offered or returned to a caller in
    the stretch is nil. *)
Theorem successful_sends_reuse_connection cfg (evs0 evs : list event) (s s' : System) :
  run cfg evs0 initial = Some s →
  open (worker s) = true →
  Forall (λ ev, calm ev = true) evs →
  run cfg evs s = Some s' →
  ∃ k new,
    closer (worker s) = Some k ∧
    open (worker s') = true ∧
    closer (worker s') = Some k ∧
    trace (worker s') = trace (worker s) ++ new ∧
    Forall (λ x, quiet k x = true) new ∧
    received new = handoffs evs ∧
    sent new = handoffs evs ∧
    (emitted new + pending (wpc s'))%nat = (handoffs evs + pending (wpc s))%nat ∧
    (∀ e, wpc s' = SendOut e → e = None) ∧
    (∀ c e, threads s' !! c = Some (Returned e) →
            threads s !! c ≠ Some (Returned e) → e = None).
Proof.
  intros Hreach Ho Hevs Hrun.
  pose proof (reachable_consistent cfg evs0 s Hreach) as Hcons.
  destruct Hcons as (Hc & Hrest). destruct (Hc Ho) as [k Hk].
  destruct (calm_run cfg k evs s s' (conj Hc Hrest) Ho Hk Hevs Hrun)
    as (Ho' & Hk' & (new & Htr & Hq & Hr & Hs) & Hret).
  exists k, new. repeat (split; [done|]). split; [|split; [|done]].
  - destruct (reachable_balanced cfg evs0 s Hreach) as [_ Hb].
    assert (Hreach' : run cfg (evs0 ++ evs) initial = Some s')
      by (by rewrite run_app, Hreach).
    destruct (reachable_balanced cfg (evs0 ++ evs) s' Hreach') as [_ Hb'].
    unfold balanced in Hb, Hb'.
    rewrite Htr, received_app, emitted_app, failedDials_app in Hb'.
    rewrite (quiet_no_failed_dial k new Hq), Hr in Hb'. lia.
  - assert (Hcons' : consistent s').
    { apply (run_invariant cfg consistent) with evs s; try done.
      intros ev sa sb. apply step_consistent. }
    destruct Hcons' as (_ & He' & _).
    intros [err|] Hpc; [|done]. specialize (He' err Hpc). congruence.
Qed.

Lemma successful_sends_reuse_connection_witness :
  let m := mkEmail "amy@example.org" "bob@example.org" "hi" "text" "" None in
  let ok := mkOutcomes (inl 7%nat) None None in
  let s := default initial
             (run defaultConfig [Call 1%nat m; Handoff 1%nat ok; Reply 1%nat] initial) in
  let evs := [Call 2%nat m; Handoff 2%nat ok; Reply 2%nat; Tick 5;
              Call 3%nat m; Handoff 3%nat ok; Reply 3%nat] in
  let s' := default initial (run defaultConfig evs s) in
  open (worker s') = true ∧ closer (worker s') = Some 7%nat ∧
  threads s' !! 3%nat = Some (Returned None).
Proof.
  intros m ok s evs s'.
  destruct (successful_sends_reuse_connection defaultConfig
              [Call 1%nat m; Handoff 1%nat ok; Reply 1%nat] evs s s')
    as (k & new & Hk & Ho & Hk' & _).
  - vm_compute. reflexivity.
  - reflexivity.
  - repeat constructor.
  - vm_compute. reflexivity.
  - split; [exact Ho|]. split; [|vm_compute; reflexivity].
    rewrite Hk'. rewrite <- Hk. reflexivity.
Defined.


Lemma insert_other_waiting (c t : nat) (p : thread_pc) (s : System) (out : bool) :
  threads s !! t = None ∨ threads s !! t = Some InStop →
  (threads s !! c = Some AtRecvOut ∨
   (chanOutClosed s = true ∧ threads s !! c = Some (Returned None))) →
  (out = true ∨ out = chanOutClosed s) →
  <[t := p]> (threads s) !! c = Some AtRecvOut ∨
  (out = true ∧ <[t := p]> (threads s) !! c = Some (Returned None)).
Proof.
  intros Ht Hc Hout.
  assert (t ≠ c) by (intros ->; destruct Ht, Hc as [?|[_ ?]]; congruence).
  rewrite lookup_insert_ne by done.
  destruct Hc as [?|[Hcl ?]]; [by left|right].
  split; [|done]. destruct Hout; congruence.
Qed.

Lemma step_leftWaiting cfg c ev s s' :
  isHandoff ev = false →
  consistent s ∧ leftWaiting c s →
  step cfg ev s = Some s' →
  consistent s' ∧ leftWaiting c s'.
Proof.
  intros Hev [Hcons (Hpc & Hc)] H.
  split; [by apply (step_consistent cfg ev s)|].
  destruct Hcons as (Hk & _). unfold leftWaiting.
  destruct ev; try discriminate Hev; step_inv H; simpl in *;
    try (destruct Hk as [? ?]; [done|]; simplify_eq);
    try (destruct Hpc; congruence);
    (split; [by auto|]);
    try done;
    try (apply insert_other_waiting; by auto).
  (* the call itself receives from the closed channelOut *)
  destruct (decide (c0 = c)) as [->|].
  - right. by rewrite lookup_insert_eq.
  - rewrite lookup_insert_ne by done. destruct Hc as [?|[? ?]]; auto.
Qed.

Lemma run_leftWaiting cfg c evs s s' :
  Forall (λ ev, isHandoff ev = false) evs →
  consistent s → leftWaiting c s →
  run cfg evs s = Some s' →
  threads s' !! c = Some AtRecvOut ∨
  (chanOutClosed s' = true ∧ threads s' !! c = Some (Returned None)).
Proof.
  intros Hevs Hcons Hw Hrun.
  assert (H : consistent s' ∧ leftWaiting c s').
  { apply (run_invariant_where cfg (λ ev, isHandoff ev = false)
             (λ s, consistent s ∧ leftWaiting c s)
             (λ ev sa sb, step_leftWaiting cfg c ev sa sb) evs s s'); done. }
  by destruct H as [_ [_ H]].
Qed.

Lemma Reply_other cfg c1 c2 e s :
  panicked s = false → chanOutClosed s = false → wpc s = SendOut e →
  threads s !! c1 = Some AtRecvOut → threads s !! c2 = Some AtRecvOut → c1 ≠ c2 →
  ∃ s', step cfg (Reply c1) s = Some s' ∧
        worker s' = note [WEmit e] (worker s) ∧
        threads s' !! c1 = Some (Returned e) ∧
        threads s' !! c2 = Some AtRecvOut ∧
        wpc s' = Select ∧
        step cfg (Reply c2) s' = None ∧
        panicked s' = false.
Proof.
  intros Hp Hout Hpc H1 H2 Hne.
  eexists. split; [by apply step_Reply|].
  unfold_turn. simpl. rewrite lookup_insert_eq, lookup_insert_ne by done.
  repeat split; try done.
  unfold step. simpl. by rewrite Hp.
Qed.

(** C4 (the code does not do this in every run): the send error does not
    always reach the caller of the message. When another SendEmail call is
    already blocked at the receive from channelOut, as a failed dial leaves
    it, and the goroutine takes a message whose send fails, it closes the
    connection and offers the send error, and the blocked call can take it:
    SendEmail returns the send error to that other caller, the caller of the
    failed message waits with nothing on offer, and as long as the goroutine
    takes no further message it stays blocked or gets nil from the channel
    closed by Stop. *)
Theorem send_error_goes_to_stranded_caller cfg (evs0 : list event) (s s' : System)
    (c1 c2 : nat) (o : Outcomes) (err : string) :
  run cfg evs0 initial = Some s →
  threads s !! c1 = Some AtRecvOut →
  step cfg (Handoff c2 o) s = Some s' →
  (open (worker s) = true ∨ ∃ k, dial o = inl k) →
  send o = Some err →
  open (worker s') = false ∧
  wpc s' = SendOut (Some err) ∧
  threads s' !! c2 = Some AtRecvOut ∧
  ∃ s'', step cfg (Reply c1) s' = Some s'' ∧
         threads s'' !! c1 = Some (Returned (Some err)) ∧
         threads s'' !! c2 = Some AtRecvOut ∧
         wpc s'' = Select ∧
         step cfg (Reply c2) s'' = None ∧
         ∀ evs s3,
           Forall (λ ev, isHandoff ev = false) evs →
           run cfg evs s'' = Some s3 →
           threads s3 !! c2 = Some AtRecvOut ∨
           (chanOutClosed s3 = true ∧ threads s3 !! c2 = Some (Returned None)).
Proof.
  intros Hreach H1 H Hconn Hsend.
  pose proof (reachable_consistent cfg evs0 s Hreach) as Hcons.
  pose proof (step_consistent cfg _ s s' Hcons H) as Hcons'.
  destruct Hcons as (Hc & _ & Hcl & _ & _).
  assert (Hne : c1 ≠ c2) by (intros ->; step_inv H; congruence).
  assert (Hs' : open (worker s') = false ∧ wpc s' = SendOut (Some err) ∧
                panicked s' = false ∧ chanOutClosed s' = false ∧
                threads s' !! c2 = Some AtRecvOut ∧
                threads s' !! c1 = Some AtRecvOut).
  { step_inv H; simpl in *; rewrite ?lookup_insert_eq, ?lookup_insert_ne by done;
      try (destruct Hc as [? ?]; [done|]; simplify_eq);
      try (destruct Hconn as [?|[? ?]]; congruence);
      repeat split; try done;
      by destruct (chanOutClosed s); [specialize (Hcl eq_refl); congruence|]. }
  destruct Hs' as (Ho' & Hpc' & Hp' & Hout' & H2' & H1').
  split; [done|]. split; [done|]. split; [done|].
  destruct (Reply_other cfg c1 c2 (Some err) s' Hp' Hout' Hpc' H1' H2' Hne)
    as (s'' & Hr & Hw & Hr1 & Hr2 & Hsel & Hdis & Hp'').
  exists s''. repeat (split; [done|]).
  intros evs s3 Hevs Hrun.
  apply (run_leftWaiting cfg c2 evs s'' s3 Hevs); try done.
  - by apply (step_consistent cfg (Reply c1) s').
  - split; [by left | by left].
Qed.

Lemma send_error_goes_to_stranded_caller_witness :
  let m := mkEmail "amy@example.org" "bob@example.org" "hi" "text" "" None in
  let refused := mkOutcomes (inr "connection refused") None None in
  let broken := mkOutcomes (inl 7%nat) (Some "write: broken pipe") None in
  let s := default initial
             (run defaultConfig [Call 1%nat m; Handoff 1%nat refused; Call 2%nat m]
                initial) in
  let s' := default initial (step defaultConfig (Handoff 2%nat broken) s) in
  ∃ s'', step defaultConfig (Reply 1%nat) s' = Some s'' ∧
         threads s'' !! 1%nat = Some (Returned (Some "write: broken pipe")) ∧
         threads s'' !! 2%nat = Some AtRecvOut ∧
         wpc s'' = Select ∧
         step defaultConfig (Reply 2%nat) s'' = None.
Proof.
  intros m refused broken s s'.
  destruct (send_error_goes_to_stranded_caller defaultConfig
              [Call 1%nat m; Handoff 1%nat refused; Call 2%nat m] s s'
              1%nat 2%nat broken "write: broken pipe")
    as (_ & _ & _ & s'' & Hr & H1 & H2 & Hsel & Hdis & _).
  - vm_compute. reflexivity.
  - vm_compute. reflexivity.
  - vm_compute. reflexivity.
  - right. exists 7%nat. reflexivity.
  - reflexivity.
  - exists s''. repeat split; assumption.
Defined.


(** C5 (the code does not do this in every run): a successful send on the
    open connection is not always answered to its caller. When another
    SendEmail call is already blocked at the receive from channelOut, as a
    failed dial leaves it, the goroutine sends the message on the open
    connection without a dial and offers nil, and the blocked call can take
    it: the connection stays open, the caller of the message waits with
    nothing on offer, and as long as the goroutine takes no further message
    it stays blocked or gets nil from the channel closed by Stop. *)
Theorem nil_response_goes_to_stranded_caller cfg (evs0 : list event) (s s' : System)
    (c1 c2 : nat) (o : Outcomes) :
  run cfg evs0 initial = Some s →
  open (worker s) = true →
  threads s !! c1 = Some AtRecvOut →
  step cfg (Handoff c2 o) s = Some s' →
  send o = None →
  (∃ k msg, closer (worker s) = Some k ∧
            open (worker s') = true ∧
            closer (worker s') = Some k ∧
            trace (worker s') = trace (worker s) ++ [WRecv msg; WSend k msg None]) ∧
  wpc s' = SendOut None ∧
  threads s' !! c2 = Some AtRecvOut ∧
  ∃ s'', step cfg (Reply c1) s' = Some s'' ∧
         open (worker s'') = true ∧
         threads s'' !! c1 = Some (Returned None) ∧
         threads s'' !! c2 = Some AtRecvOut ∧
         wpc s'' = Select ∧
         step cfg (Reply c2) s'' = None ∧
         ∀ evs s3,
           Forall (λ ev, isHandoff ev = false) evs →
           run cfg evs s'' = Some s3 →
           threads s3 !! c2 = Some AtRecvOut ∨
           (chanOutClosed s3 = true ∧ threads s3 !! c2 = Some (Returned None)).
Proof.
  intros Hreach Ho H1 H Hsend.
  pose proof (reachable_consistent cfg evs0 s Hreach) as Hcons.
  pose proof (step_consistent cfg _ s s' Hcons H) as Hcons'.
  destruct Hcons as (Hc & _ & Hcl & _ & _).
  destruct (Hc Ho) as [k Hk].
  assert (Hne : c1 ≠ c2) by (intros ->; step_inv H; congruence).
  assert (Hs' : (∃ msg, open (worker s') = true ∧ closer (worker s') = Some k ∧
                        trace (worker s')
                        = trace (worker s) ++ [WRecv msg; WSend k msg None]) ∧
                wpc s' = SendOut None ∧
                panicked s' = false ∧ chanOutClosed s' = false ∧
                threads s' !! c2 = Some AtRecvOut ∧
                threads s' !! c1 = Some AtRecvOut).
  { step_inv H; simpl in *; rewrite ?lookup_insert_eq, ?lookup_insert_ne by done;
      try congruence.
    split; [eexists; by rewrite <- app_assoc|]. repeat split; try done.
    by destruct (chanOutClosed s); [specialize (Hcl eq_refl); congruence|]. }
  destruct Hs' as ((msg & Ho' & Hk' & Htr') & Hpc' & Hp' & Hout' & H2' & H1').
  split; [by exists k, msg|]. split; [done|]. split; [done|].
  destruct (Reply_other cfg c1 c2 None s' Hp' Hout' Hpc' H1' H2' Hne)
    as (s'' & Hr & Hw & Hr1 & Hr2 & Hsel & Hdis & Hp'').
  exists s''. split; [done|].
  split; [by rewrite Hw|].
  repeat (split; [done|]).
  intros evs s3 Hevs Hrun.
  apply (run_leftWaiting cfg c2 evs s'' s3 Hevs); try done.
  - by apply (step_consistent cfg (Reply c1) s').
  - split; [by left | by left].
Qed.

Lemma nil_response_goes_to_stranded_caller_witness :
  let m := mkEmail "amy@example.org" "bob@example.org" "hi" "text" "" None in
  let refused := mkOutcomes (inr "connection refused") None None in
  let ok := mkOutcomes (inl 7%nat) None None in
  let s := default initial
             (run defaultConfig
                [Call 1%nat m; Handoff 1%nat refused; Call 2%nat m; Handoff 2%nat ok;
                 Reply 1%nat; Call 3%nat m]
                initial) in
  let s' := default initial (step defaultConfig (Handoff 3%nat ok) s) in
  open (worker s) = true ∧
  ∃ s'', step defaultConfig (Reply 2%nat) s' = Some s'' ∧
         threads s'' !! 2%nat = Some (Returned None) ∧
         threads s'' !! 3%nat = Some AtRecvOut ∧
         wpc s'' = Select ∧
         step defaultConfig (Reply 3%nat) s'' = None.
Proof.
  intros m refused ok s s'.
  split; [reflexivity|].
  destruct (nil_response_goes_to_stranded_caller defaultConfig
              [Call 1%nat m; Handoff 1%nat refused; Call 2%nat m; Handoff 2%nat ok;
               Reply 1%nat; Call 3%nat m] s s' 2%nat 3%nat ok)
    as (_ & _ & _ & s'' & Hr & _ & H1 & H2 & Hsel & Hdis & _).
  - vm_compute. reflexivity.
  - reflexivity.
  - vm_compute. reflexivity.
  - vm_compute. reflexivity.
  - reflexivity.
  - exists s''. repeat split; assumption.
Defined.

(** C6: the idle timeout is 30 seconds. With the connection open and the
    goroutine in the select, the timer case cannot be taken before the
    goroutine has waited that long; once it has, taking it closes the
    connection and sets it closed, leaves the goroutine in the select with
    nothing offered on channelOut, leaves every caller and what Health
    returns as they were, and writes an error of the close to the log as a
    warning and nowhere else. *)
Theorem idle_timeout_closes cfg (evs0 : list event) (s : System) (o : Outcomes) (d : Z) :
  run cfg evs0 initial = Some s →
  panicked s = false →
  wpc s = Select →
  open (worker s) = true →
  0 ≤ d →
  idleTimeout = 30 * 1000000000 ∧
  (wait s + d < idleTimeout → run cfg [Tick d; Timer o] s = None) ∧
  (idleTimeout ≤ wait s + d →
   ∃ k s',
     run cfg [Tick d; Timer o] s = Some s' ∧
     closer (worker s) = Some k ∧
     trace (worker s') = trace (worker s) ++ [WClose k (close o)] ∧
     open (worker s') = false ∧
     wpc s' = Select ∧
     threads s' = threads s ∧
     Health s' = Health s ∧
     log (worker s') = log (worker s) ++ closeWarning (close o)).
Proof.
  intros Hreach Hp Hpc Ho Hd.
  pose proof (reachable_consistent cfg evs0 s Hreach) as (Hc & _).
  destruct (Hc Ho) as [k Hk].
  split; [reflexivity|]. split.
  - intros Hlt. simpl. rewrite step_Tick by done.
    unfold step. simpl. by rewrite bool_decide_eq_false_2 by lia.
  - intros Hge. exists k. eexists. split.
    + simpl. rewrite step_Tick by done. rewrite step_Timer by done. reflexivity.
    + rewrite !Health_error. unfold_turn. unfold closeWarning. simpl.
      rewrite Ho, Hk. simpl.
      destruct (close o); simpl; rewrite ?app_nil_r; done.
Qed.

Lemma idle_timeout_closes_witness :
  let m := mkEmail "amy@example.org" "bob@example.org" "hi" "text" "" None in
  let o := mkOutcomes (inl 7%nat) None (Some "use of closed network connection") in
  let s := default initial
             (run defaultConfig [Call 1%nat m; Handoff 1%nat o; Reply 1%nat] initial) in
  run defaultConfig [Tick (29 * Go.Second); Timer o] s = None ∧
  ∃ s', run defaultConfig [Tick (30 * Go.Second); Timer o] s = Some s' ∧
        open (worker s') = false ∧ wpc s' = Select ∧ Health s' = Health s.
Proof.
  intros m o s.
  assert (Hreach : run defaultConfig [Call 1%nat m; Handoff 1%nat o; Reply 1%nat] initial
                   = Some s) by (vm_compute; reflexivity).
  split.
  - destruct (idle_timeout_closes defaultConfig _ s o (29 * Go.Second) Hreach
                eq_refl eq_refl eq_refl ltac:(vm_compute; discriminate))
      as (_ & Hlt & _).
    apply Hlt. vm_compute. reflexivity.
  - destruct (idle_timeout_closes defaultConfig _ s o (30 * Go.Second) Hreach
                eq_refl eq_refl eq_refl ltac:(vm_compute; discriminate))
      as (_ & _ & Hge).
    destruct Hge as (k & s' & Hrun & _ & _ & Ho & Hpc & _ & Hh & _).
    + vm_compute. discriminate.
    + exists s'. repeat split; assumption.
Defined.


Lemma Handoff_receives cfg c o s s' :
  step cfg (Handoff c o) s = Some s' →
  ∃ msg rest,
    threads s !! c = Some (AtSendIn msg) ∧
    trace (worker s') = trace (worker s) ++ WRecv msg :: rest ∧
    threads s' !! c = Some AtRecvOut.
Proof.
  intros H. step_inv H; simpl in *;
    eexists _, _; (split; [done|]); rewrite lookup_insert_eq;
    (split; [|done]); rewrite <- ?app_assoc; simpl; reflexivity.
Qed.

(** C10: SendEmail validates nothing. On a running service a call with any
    Email composes the message and reaches the send on channelIn, and a
    goroutine waiting in the select receives exactly that message. A call
    only ever returns what it receives from channelOut: the value the
    goroutine is sending there, or nil from the channel closed by Stop. *)
Theorem SendEmail_no_validation cfg (s : System) (c : nat) (m : Email) :
  panicked s = false →
  chanInClosed s = false →
  threads s !! c = None →
  ∃ s1,
    step cfg (Call c m) s = Some s1 ∧
    threads s1 !! c = Some (AtSendIn (composeMessage cfg m)) ∧
    panicked s1 = false ∧
    (wpc s = Select → ∀ o, ∃ s2 rest,
       step cfg (Handoff c o) s1 = Some s2 ∧
       threads s2 !! c = Some AtRecvOut ∧
       trace (worker s2) = trace (worker s) ++ WRecv (composeMessage cfg m) :: rest) ∧
    ∀ ev sa sb e,
      step cfg ev sa = Some sb →
      threads sb !! c = Some (Returned e) →
      threads sa !! c ≠ Some (Returned e) →
      (ev = Reply c ∧ wpc sa = SendOut e) ∨
      (ev = ReplyClosed c ∧ chanOutClosed sa = true ∧ e = None).
Proof.
  intros Hp Hin Hc. eexists. split; [by apply step_Call|].
  split; [by simpl; rewrite lookup_insert_eq|]. split; [done|]. split.
  - intros Hpc o.
    pose proof (step_Handoff cfg c o (composeMessage cfg m)
                  (setThread c (AtSendIn (composeMessage cfg m)) s)
                  Hp Hin Hpc (lookup_insert_eq _ _ _)) as Hh.
    destruct (Handoff_receives cfg c o _ _ Hh) as (msg & rest & Hl & Htr & Hl').
    simpl in Hl. rewrite lookup_insert_eq in Hl. simplify_eq.
    eexists _, rest. split; [exact Hh|]. split; [exact Hl'|]. exact Htr.
  - intros ev sa sb e H Hb Ha.
    destruct ev; step_inv H; simpl in *;
      try congruence;
      match goal with
      | Hl : <[?c' := _]> _ !! c = _ |- _ =>
          destruct (decide (c' = c)) as [->|];
          [rewrite lookup_insert_eq in Hl | rewrite lookup_insert_ne in Hl by done];
          simplify_eq; try congruence
      end.
    + by left.
    + by right.
Qed.

Lemma SendEmail_no_validation_witness :
  let m := mkEmail "" "" "" "" "" None in
  ∃ s1, step defaultConfig (Call 1%nat m) initial = Some s1 ∧
        threads s1 !! 1%nat = Some (AtSendIn (composeMessage defaultConfig m)).
Proof.
  intros m.
  destruct (SendEmail_no_validation defaultConfig initial 1%nat m)
    as (s1 & Hs & Ht & _); try reflexivity.
  exists s1. split; [exact Hs | exact Ht].
Defined.

(** * Further properties of the service *)

(** X1: the composed message has exactly the three header fields From, To
    and Subject; To and Subject carry the Email's fields as go-mail's header
    encoder leaves them: unchanged when they are made of printable ASCII
    characters and tabs, as Q-encoded words otherwise. *)
Theorem SendEmail_sets_three_headers (cfg : Config) (m : Email) :
  dom (Mail.header (composeMessage cfg m)) = ({["From"; "To"; "Subject"]} : gset string) ∧
  Mail.header (composeMessage cfg m) !! "To" = Some [Mime.Encode (To m)] ∧
  Mail.header (composeMessage cfg m) !! "Subject" = Some [Mime.Encode (Subject m)] ∧
  (allPrintable (To m) = true →
   Mail.header (composeMessage cfg m) !! "To" = Some [To m]) ∧
  (allPrintable (Subject m) = true →
   Mail.header (composeMessage cfg m) !! "Subject" = Some [Subject m]).
Proof.
  rewrite composeMessage_header. split; [|split; [|split; [|split]]].
  - rewrite !dom_insert_L, dom_singleton_L. set_solver.
  - rewrite lookup_insert_ne by done. by rewrite lookup_insert_eq.
  - by rewrite lookup_insert_eq.
  - intros Hp. rewrite lookup_insert_ne by done.
    by rewrite lookup_insert_eq, Encode_printable.
  - intros Hp. by rewrite lookup_insert_eq, Encode_printable.
Qed.

Lemma SendEmail_sets_three_headers_witness :
  let plain := mkEmail "amy@example.org" "bob@example.org" "hi" "text" "" None in
  let accented := mkEmail "amy@example.org" "bob@example.org" "Café" "text" "" None in
  Mail.header (composeMessage defaultConfig plain) !! "To" = Some ["bob@example.org"] ∧
  Mail.header (composeMessage defaultConfig plain) !! "Subject" = Some ["hi"] ∧
  Mail.header (composeMessage defaultConfig accented) !! "Subject"
  = Some ["=?UTF-8?q?Caf=C3=A9?="].
Proof.
  intros plain accented.
  destruct (SendEmail_sets_three_headers defaultConfig plain) as (_ & _ & _ & Ht & Hs).
  destruct (SendEmail_sets_three_headers defaultConfig accented) as (_ & _ & Ha & _).
  split; [apply Ht; reflexivity|]. split; [apply Hs; reflexivity|].
  rewrite Ha. vm_compute. reflexivity.
Defined.

(** X2: the composed message has at most one body part: the HTML body when
    BodyHTML is not empty, otherwise the plain body when BodyPlain is not
    empty, and no part at all when both are empty. *)
Theorem SendEmail_body_parts (cfg : Config) (m : Email) :
  Mail.parts (composeMessage cfg m)
  = if bool_decide (BodyHTML m = "") then
      if bool_decide (BodyPlain m = "") then []
      else [Mail.mkPart "text/plain" (BodyPlain m)]
    else [Mail.mkPart "text/html" (BodyHTML m)].
Proof.
  unfold composeMessage. rewrite addAttachements_parts.
  unfold setBodyHTML, setBodyPlain, isEmpty.
  by destruct (bool_decide (BodyHTML m = "")), (bool_decide (BodyPlain m = "")).
Qed.

Lemma fold_addAttachement_ext (g : EmailAttachement → EmailAttachement) l :
  (∀ msg a, addAttachement msg (g a) = addAttachement msg a) →
  ∀ msg, fold_left addAttachement (map g l) msg = fold_left addAttachement l msg.
Proof.
  intros Hg. induction l as [|a l IH]; intros msg; simpl; [done|].
  by rewrite Hg, IH.
Qed.

(** X3: the Mimetype of an attachement plays no part: an Email whose
    attachements differ only in their Mimetype composes the same message. *)
Theorem SendEmail_ignores_mimetype (cfg : Config) (m : Email)
    (l : list EmailAttachement) (mt : EmailAttachement → string) :
  Attachements m = Some l →
  composeMessage cfg (withAttachements (Some (map (λ a, withMimetype (mt a) a) l)) m)
  = composeMessage cfg m.
Proof.
  intros Hl. unfold composeMessage, addAttachements. rewrite Hl. simpl.
  rewrite (fold_addAttachement_ext (λ a, withMimetype (mt a) a)) by done.
  done.
Qed.

Lemma SendEmail_ignores_mimetype_witness :
  let png := mkEmailAttachement "logo.png" "image/png" true [Byte.x89; Byte.x50] in
  let m := mkEmail "amy@example.org" "bob@example.org" "hi" "text" "" (Some [png]) in
  composeMessage defaultConfig
    (withAttachements (Some [mkEmailAttachement "logo.png" "text/plain" true [Byte.x89; Byte.x50]]) m)
  = composeMessage defaultConfig m.
Proof.
  intros png m.
  apply (SendEmail_ignores_mimetype defaultConfig m [png] (λ _, "text/plain")).
  reflexivity.
Defined.











Lemma connOf_app tr new : connOf (tr ++ new) = fold_left connAfter new (connOf tr).
Proof. unfold connOf. apply fold_left_app. Qed.

Lemma orderly_app tr : ∀ conn new,
  orderly conn (tr ++ new)
  = orderly conn tr && orderly (fold_left connAfter tr conn) new.
Proof.
  induction tr as [|x tr IH]; intros conn new; simpl; [done|].
  rewrite IH. by rewrite andb_assoc.
Qed.

Lemma orderly_snoc tr new :
  orderly None tr = true →
  orderly (connOf tr) new = true →
  orderly None (tr ++ new) = true.
Proof. intros H1 H2. rewrite orderly_app. unfold connOf in H2. by rewrite H1, H2. Qed.

Lemma step_orderly cfg ev s s' :
  consistent s →
  held (worker s) = connOf (trace (worker s)) ∧ orderly None (trace (worker s)) = true →
  step cfg ev s = Some s' →
  held (worker s') = connOf (trace (worker s')) ∧ orderly None (trace (worker s')) = true.
Proof.
  intros (Hc & _) [Hh Ho] H. unfold held in *.
  destruct ev; step_inv H; simpl in *;
    try (destruct Hc as [? ?]; [done|]; simplify_eq);
    try done;
    rewrite <- ?app_assoc; simpl;
    (split; [rewrite ?connOf_app; simpl; congruence|]);
    first [done | apply orderly_snoc; try done; rewrite <- Hh; simpl;
                  rewrite ?bool_decide_eq_true_2; done].
Qed.

(** X5: in every state the service reaches, the history of the goroutine
    respects the connection: it dials only with no connection open, sends
    and closes only on the connection that is open, and its [open] flag and
    [closer] say which connection the history has left open. *)
Theorem one_connection_at_a_time cfg (evs : list event) (s : System) :
  run cfg evs initial = Some s →
  orderly None (trace (worker s)) = true ∧
  connOf (trace (worker s)) = if open (worker s) then closer (worker s) else None.
Proof.
  intros Hrun.
  assert (H : consistent s ∧
              (held (worker s) = connOf (trace (worker s)) ∧
               orderly None (trace (worker s)) = true)).
  { revert Hrun. apply (run_invariant cfg (λ s, consistent s ∧
      (held (worker s) = connOf (trace (worker s)) ∧
       orderly None (trace (worker s)) = true))).
    - intros ev s1 s2 [Hc Hl] H. split.
      + by apply (step_consistent cfg ev s1).
      + by apply (step_orderly cfg ev s1).
    - split; [apply initial_consistent | done]. }
  destruct H as (_ & Hh & Ho). split; [done|]. by rewrite <- Hh.
Qed.

Lemma one_connection_at_a_time_witness :
  let m := mkEmail "amy@example.org" "bob@example.org" "hi" "text" "" None in
  let refused := mkOutcomes (inr "connection refused") None None in
  let ok := mkOutcomes (inl 7%nat) None None in
  let broken := mkOutcomes (inl 8%nat) (Some "broken pipe") None in
  let s := default initial
             (run defaultConfig
                [Call 1%nat m; Handoff 1%nat ok; Reply 1%nat;
                 Call 2%nat m; Handoff 2%nat broken; Reply 2%nat;
                 Call 3%nat m; Handoff 3%nat ok] initial) in
  orderly None (trace (worker s)) = true ∧
  connOf (trace (worker s)) = if open (worker s) then closer (worker s) else None.
Proof.
  intros m refused ok broken s.
  apply (one_connection_at_a_time defaultConfig
           [Call 1%nat m; Handoff 1%nat ok; Reply 1%nat;
            Call 2%nat m; Handoff 2%nat broken; Reply 2%nat;
            Call 3%nat m; Handoff 3%nat ok]).
  vm_compute. reflexivity.
Defined.



Lemma step_unstopped cfg ev s s' :
  isStop ev = false ∧ isCallNil ev = false →
  consistent s ∧ chanInClosed s = false ∧ chanOutClosed s = false ∧
    panicked s = false ∧ wpc s ≠ Exited ∧
    (∀ t, threads s !! t ≠ Some InStop) →
  step cfg ev s = Some s' →
  consistent s' ∧ chanInClosed s' = false ∧ chanOutClosed s' = false ∧
    panicked s' = false ∧ wpc s' ≠ Exited ∧
    (∀ t, threads s' !! t ≠ Some InStop).
Proof.
  intros [Hev Hnil] (Hcons & Hin & Hout & Hp & Hpc & Hst) H.
  split; [by apply (step_consistent cfg ev s)|].
  destruct Hcons as (Hc & _).
  destruct ev; try discriminate Hev; try discriminate Hnil; step_inv H; simpl in *;
    try (destruct Hc as [? ?]; [done|]; simplify_eq);
    try congruence;
    try (by exfalso; eapply Hst);
    repeat split; try done;
    intros t' Hl; lookup_cases; by eapply Hst.
Qed.

(** X7: as long as no thread calls Stop and SendEmail is not called with a
    nil Email, nothing panics, the goroutine does not end, and both channels
    stay open. *)
Theorem no_panic_without_Stop cfg (evs : list event) (s : System) :
  Forall (λ ev, isStop ev = false) evs →
  Forall (λ ev, isCallNil ev = false) evs →
  run cfg evs initial = Some s →
  panicked s = false ∧ wpc s ≠ Panicked ∧ wpc s ≠ Exited ∧
  chanInClosed s = false ∧ chanOutClosed s = false.
Proof.
  intros Hevs Hnil Hrun.
  assert (H : consistent s ∧ chanInClosed s = false ∧ chanOutClosed s = false ∧
              panicked s = false ∧ wpc s ≠ Exited ∧
              (∀ t, threads s !! t ≠ Some InStop)).
  { apply (run_invariant_where cfg (λ ev, isStop ev = false ∧ isCallNil ev = false)
             (λ s, consistent s ∧ chanInClosed s = false ∧ chanOutClosed s = false ∧
                   panicked s = false ∧ wpc s ≠ Exited ∧
                   (∀ t, threads s !! t ≠ Some InStop))
             (λ ev sa sb, step_unstopped cfg ev sa sb) evs initial s);
      [by apply Forall_and | | exact Hrun].
    split; [apply initial_consistent|]. repeat split; try done. }
  destruct H as ((_ & _ & _ & _ & Hnp) & Hin & Hout & Hp & Hex & _). done.
Qed.

Lemma no_panic_without_Stop_witness :
  let m := mkEmail "amy@example.org" "bob@example.org" "hi" "text" "" None in
  let refused := mkOutcomes (inr "connection refused") None None in
  let ok := mkOutcomes (inl 7%nat) None None in
  let s := default initial
             (run defaultConfig
                [Call 1%nat m; Handoff 1%nat refused; Tick idleTimeout; Timer ok;
                 Call 2%nat m; Handoff 2%nat ok; Reply 1%nat] initial) in
  panicked s = false ∧ wpc s ≠ Panicked ∧ wpc s ≠ Exited ∧
  chanInClosed s = false ∧ chanOutClosed s = false.
Proof.
  intros m refused ok s.
  apply (no_panic_without_Stop defaultConfig
           [Call 1%nat m; Handoff 1%nat refused; Tick idleTimeout; Timer ok;
            Call 2%nat m; Handoff 2%nat ok; Reply 1%nat]).
  - repeat constructor.
  - repeat constructor.
  - vm_compute. reflexivity.
Defined.


Lemma step_offer_has_taker cfg ev s s' :
  consistent s →
  (panicked s = false → isSendOut (wpc s) = true →
   chanOutClosed s = false ∧ ∃ c, threads s !! c = Some AtRecvOut) →
  step cfg ev s = Some s' →
  panicked s' = false → isSendOut (wpc s') = true →
  chanOutClosed s' = false ∧ ∃ c, threads s' !! c = Some AtRecvOut.
Proof.
  intros (Hc & _ & Hcl & _) Hinv H Hp' Hpc'.
  destruct ev; step_inv H; simpl in *; try done;
    try (destruct Hc as [? ?]; [done|]; simplify_eq);
    try (destruct (Hinv eq_refl Hpc') as [Ho [c' Hc']]);
    try (destruct (Hinv eq_refl eq_refl) as [Ho [c' Hc']]);
    try congruence.
  all: try (split; [by destruct (chanOutClosed s); [specialize (Hcl eq_refl)|]; congruence|];
            eexists; by rewrite lookup_insert_eq).
  all: try (split; [done|]; exists c';
            rewrite lookup_insert_ne; [done | intros ->; congruence]).
  all: try (split; [done|]; by exists c').
  all: match goal with
       | Hor : _ || _ = false |- _ => apply orb_false_elim in Hor as [? ?]; congruence
       end.
Qed.

(** X8: the goroutine is never stuck at its send on channelOut: in every
    state the service reaches without a panic, when it offers a response
    some SendEmail call is waiting at the receive and can take it, which
    brings the goroutine back to the select. *)
Theorem offered_response_can_be_taken cfg (evs : list event) (s : System) (e : Go.error) :
  run cfg evs initial = Some s →
  panicked s = false →
  wpc s = SendOut e →
  ∃ c s', threads s !! c = Some AtRecvOut ∧
          step cfg (Reply c) s = Some s' ∧
          threads s' !! c = Some (Returned e) ∧
          wpc s' = Select.
Proof.
  intros Hrun Hp Hpc.
  assert (H : consistent s ∧
              (panicked s = false → isSendOut (wpc s) = true →
               chanOutClosed s = false ∧ ∃ c, threads s !! c = Some AtRecvOut)).
  { revert Hrun. apply (run_invariant cfg (λ s, consistent s ∧
      (panicked s = false → isSendOut (wpc s) = true →
       chanOutClosed s = false ∧ ∃ c, threads s !! c = Some AtRecvOut))).
    - intros ev s1 s2 [Hc Hl] H. split.
      + by apply (step_consistent cfg ev s1).
      + by apply (step_offer_has_taker cfg ev s1).
    - split; [apply initial_consistent | done]. }
  destruct H as [_ H]. destruct (H Hp) as [Hout [c Hc]]; [by rewrite Hpc|].
  exists c. eexists. split; [done|]. split; [by apply step_Reply|].
  unfold_turn; simpl. by rewrite lookup_insert_eq.
Qed.

Lemma offered_response_can_be_taken_witness :
  let m := mkEmail "amy@example.org" "bob@example.org" "hi" "text" "" None in
  let refused := mkOutcomes (inr "connection refused") None None in
  let ok := mkOutcomes (inl 7%nat) None None in
  let s := default initial
             (run defaultConfig [Call 1%nat m; Handoff 1%nat ok] initial) in
  ∃ c s', threads s !! c = Some AtRecvOut ∧
          step defaultConfig (Reply c) s = Some s' ∧
          threads s' !! c = Some (Returned None) ∧
          wpc s' = Select.
Proof.
  intros m refused ok s.
  apply (offered_response_can_be_taken defaultConfig
           [Call 1%nat m; Handoff 1%nat ok] s None).
  - vm_compute. reflexivity.
  - reflexivity.
  - reflexivity.
Defined.


Lemma senderBlocked_false s :
  (∀ c p, threads s !! c = Some p → isAtSendIn p = false) → senderBlocked s = false.
Proof.
  intros H. unfold senderBlocked. apply bool_decide_eq_false_2.
  intros (c & p & Hl & Hp). rewrite (H c p Hl) in Hp. done.
Qed.

Lemma senderBlocked_true s c msg :
  threads s !! c = Some (AtSendIn msg) → senderBlocked s = true.
Proof.
  intros H. unfold senderBlocked. apply bool_decide_eq_true_2.
  by exists c, (AtSendIn msg).
Qed.

Lemma step_Stop cfg t s :
  panicked s = false → chanInClosed s = false → threads s !! t = None →
  (∀ c p, threads s !! c = Some p → isAtSendIn p = false) →
  step cfg (Stop t) s
  = Some (mkSystem (worker s) (wpc s) (wait s) true (chanOutClosed s)
                   (<[t := InStop]> (threads s)) false).
Proof.
  intros Hp Hin Ht Hno. unfold step.
  by rewrite Hp, Ht, Hin, (senderBlocked_false s Hno).
Qed.

Lemma step_StopOut cfg t s :
  panicked s = false → chanOutClosed s = false → threads s !! t = Some InStop →
  step cfg (StopOut t) s
  = Some (mkSystem (worker s) (wpc s) (wait s) (chanInClosed s) true
                   (<[t := Stopped]> (threads s)) (isSendOut (wpc s))).
Proof.
  intros Hp Hout Ht. unfold step. rewrite Hp, Ht, Hout. simpl.
  unfold panic. simpl. by destruct (isSendOut (wpc s)).
Qed.

Lemma step_WorkerSeesClosed cfg s :
  panicked s = false → chanInClosed s = true → wpc s = Select →
  step cfg WorkerSeesClosed s
  = Some (mkSystem (worker s) Exited 0 true (chanOutClosed s) (threads s) false).
Proof.
  intros Hp Hin Hpc. unfold step. rewrite Hp, Hpc, Hin. unfold_turn. simpl.
  by rewrite Hin, Hp.
Qed.

Lemma step_ReplyClosed cfg c s :
  panicked s = false → chanOutClosed s = true → threads s !! c = Some AtRecvOut →
  step cfg (ReplyClosed c) s = Some (setThread c (Returned None) s).
Proof. intros Hp Hout Hc. unfold step. by rewrite Hp, Hc, Hout. Qed.

(** X9: Stop on a service whose goroutine waits in the select and with no
    SendEmail call blocked at channelIn closes both channels without a panic
    and ends the goroutine. The goroutine's state is left as it was: a
    connection that is open is not closed. *)
Theorem Stop_when_idle cfg (s : System) (t : nat) :
  panicked s = false →
  chanInClosed s = false →
  chanOutClosed s = false →
  wpc s = Select →
  threads s !! t = None →
  (∀ c p, threads s !! c = Some p → isAtSendIn p = false) →
  ∃ s', run cfg [Stop t; StopOut t; WorkerSeesClosed] s = Some s' ∧
        panicked s' = false ∧
        wpc s' = Exited ∧
        worker s' = worker s ∧
        chanInClosed s' = true ∧ chanOutClosed s' = true ∧
        threads s' = <[t := Stopped]> (threads s).
Proof.
  intros Hp Hin Hout Hpc Ht Hno.
  eexists. split.
  - cbn [run]. rewrite step_Stop by done. cbv beta iota.
    rewrite step_StopOut by (simpl; rewrite ?lookup_insert_eq; done). cbv beta iota.
    rewrite step_WorkerSeesClosed by (simpl; rewrite ?Hpc; done).
    reflexivity.
  - simpl. by rewrite insert_insert_eq.
Qed.

Lemma Stop_when_idle_witness :
  ∃ s', run defaultConfig [Stop 9%nat; StopOut 9%nat; WorkerSeesClosed] initial = Some s' ∧
        panicked s' = false ∧ wpc s' = Exited ∧ worker s' = worker initial.
Proof.
  destruct (Stop_when_idle defaultConfig initial 9%nat)
    as (s' & Hrun & Hp & Hpc & Hw & _); try reflexivity.
  - intros c p Hl. simpl in Hl. by rewrite lookup_empty in Hl.
  - exists s'. repeat split; assumption.
Defined.


(** X10: Stop panics when a SendEmail call is blocked at the send on
    channelIn (at the first close), and when the goroutine is offering a
    response on channelOut (at the second close). *)
Theorem Stop_during_call_panics cfg (s : System) (t : nat) :
  panicked s = false →
  chanInClosed s = false →
  chanOutClosed s = false →
  threads s !! t = None →
  ((∃ c msg, threads s !! c = Some (AtSendIn msg)) →
   ∃ s', step cfg (Stop t) s = Some s' ∧ panicked s' = true) ∧
  ((∀ c p, threads s !! c = Some p → isAtSendIn p = false) →
   isSendOut (wpc s) = true →
   ∃ s', run cfg [Stop t; StopOut t] s = Some s' ∧ panicked s' = true).
Proof.
  intros Hp Hin Hout Ht. split.
  - intros (c & msg & Hc). eexists. split.
    + unfold step. rewrite Hp, Ht, Hin, (senderBlocked_true s c msg Hc). reflexivity.
    + done.
  - intros Hno Hpc. eexists. split.
    + cbn [run]. rewrite step_Stop by done. cbv beta iota.
      rewrite step_StopOut by (simpl; rewrite ?lookup_insert_eq; done).
      reflexivity.
    + done.
Qed.

Lemma Stop_during_call_panics_witness :
  let m := mkEmail "amy@example.org" "bob@example.org" "hi" "text" "" None in
  let refused := mkOutcomes (inr "connection refused") None None in
  let ok := mkOutcomes (inl 7%nat) None None in
  let s := default initial (run defaultConfig [Call 1%nat m] initial) in
  ∃ s', step defaultConfig (Stop 9%nat) s = Some s' ∧ panicked s' = true.
Proof.
  intros m refused ok s.
  destruct (Stop_during_call_panics defaultConfig s 9%nat) as [H _]; try reflexivity.
  apply H. exists 1%nat, (composeMessage defaultConfig m). vm_compute. reflexivity.
Defined.


Lemma step_keeps_closed cfg ev s s' :
  chanInClosed s = true → step cfg ev s = Some s' → chanInClosed s' = true.
Proof. intros Hin H. destruct ev; step_inv H; simpl in *; congruence. Qed.

(** X11: once channelIn is closed, every later SendEmail call panics, and
    after the panic nothing runs any more. *)
Theorem SendEmail_after_Stop_panics cfg (evs : list event) (s s1 s2 : System)
    (c : nat) (m : Email) :
  chanInClosed s = true →
  run cfg evs s = Some s1 →
  step cfg (Call c m) s1 = Some s2 →
  panicked s2 = true ∧
  ∀ ev, step cfg ev s2 = None.
Proof.
  intros Hin Hrun H.
  assert (Hin1 : chanInClosed s1 = true).
  { revert Hin Hrun. apply (run_invariant cfg (λ s, chanInClosed s = true)).
    intros ev sa sb. apply step_keeps_closed. }
  assert (Hp : panicked s2 = true) by (step_inv H; simpl in *; congruence).
  split; [done|]. intros ev. unfold step. by rewrite Hp.
Qed.

Lemma SendEmail_after_Stop_panics_witness :
  let m := mkEmail "amy@example.org" "bob@example.org" "hi" "text" "" None in
  let refused := mkOutcomes (inr "connection refused") None None in
  let ok := mkOutcomes (inl 7%nat) None None in
  let s := default initial (run defaultConfig [Stop 9%nat; StopOut 9%nat] initial) in
  let s1 := default initial (run defaultConfig [WorkerSeesClosed] s) in
  let s2 := default initial (step defaultConfig (Call 1%nat m) s1) in
  panicked s2 = true ∧ ∀ ev, step defaultConfig ev s2 = None.
Proof.
  intros m refused ok s s1 s2.
  apply (SendEmail_after_Stop_panics defaultConfig [WorkerSeesClosed] s s1 s2 1%nat m).
  - reflexivity.
  - vm_compute. reflexivity.
  - vm_compute. reflexivity.
Defined.


Lemma step_after_exit cfg ev s s' :
  wpc s = Exited → step cfg ev s = Some s' →
  wpc s' = Exited ∧ worker s' = worker s.
Proof. intros Hpc H. destruct ev; step_inv H; simpl in *; try congruence; done. Qed.

(** X12: once the goroutine has ended, its state never changes again: what
    Health returns, the [open] flag and the history stay as they were, so a
    connection open at that moment is never closed. *)
Theorem exited_goroutine_leaves_connection cfg (evs : list event) (s s' : System) :
  wpc s = Exited →
  run cfg evs s = Some s' →
  wpc s' = Exited ∧ worker s' = worker s.
Proof.
  intros Hpc Hrun.
  assert (H : wpc s' = Exited ∧ worker s' = worker s); [|done].
  revert Hrun. apply (run_invariant cfg (λ s1, wpc s1 = Exited ∧ worker s1 = worker s));
    [|done].
  intros ev sa sb [Ha Hw] H.
  destruct (step_after_exit cfg ev sa sb Ha H) as [? ?]. split; congruence.
Qed.

Lemma exited_goroutine_leaves_connection_witness :
  let m := mkEmail "amy@example.org" "bob@example.org" "hi" "text" "" None in
  let refused := mkOutcomes (inr "connection refused") None None in
  let ok := mkOutcomes (inl 7%nat) None None in
  let s := default initial
             (run defaultConfig
                [Call 1%nat m; Handoff 1%nat ok; Reply 1%nat;
                 Stop 9%nat; StopOut 9%nat; WorkerSeesClosed] initial) in
  let s' := default initial (run defaultConfig [Tick idleTimeout; Tick 5] s) in
  open (worker s) = true ∧ wpc s' = Exited ∧ worker s' = worker s.
Proof.
  intros m refused ok s s'.
  split; [reflexivity|].
  apply (exited_goroutine_leaves_connection defaultConfig [Tick idleTimeout; Tick 5] s s').
  - reflexivity.
  - vm_compute. reflexivity.
Defined.


(** X13: a SendEmail call that is blocked at the receive from channelOut
    while the goroutine offers nothing returns nil when Stop closes the
    channels, with the goroutine's state, and so its history of sends, as it
    was. *)
Theorem Stop_releases_blocked_caller_with_nil cfg (s : System) (c t : nat) :
  panicked s = false →
  chanInClosed s = false →
  chanOutClosed s = false →
  isSendOut (wpc s) = false →
  threads s !! t = None →
  threads s !! c = Some AtRecvOut →
  (∀ c p, threads s !! c = Some p → isAtSendIn p = false) →
  ∃ s', run cfg [Stop t; StopOut t; ReplyClosed c] s = Some s' ∧
        panicked s' = false ∧
        threads s' !! c = Some (Returned None) ∧
        worker s' = worker s.
Proof.
  intros Hp Hin Hout Hpc Ht Hc Hno.
  assert (Hne : t ≠ c) by (intros ->; congruence).
  eexists. split.
  - cbn [run]. rewrite step_Stop by done. cbv beta iota.
    rewrite step_StopOut by (simpl; rewrite ?lookup_insert_eq; done). cbv beta iota.
    rewrite step_ReplyClosed
      by (simpl; rewrite ?Hpc, ?lookup_insert_ne by done; done).
    reflexivity.
  - simpl. by rewrite lookup_insert_eq.
Qed.

Lemma Stop_releases_blocked_caller_with_nil_witness :
  let m := mkEmail "amy@example.org" "bob@example.org" "hi" "text" "" None in
  let refused := mkOutcomes (inr "connection refused") None None in
  let ok := mkOutcomes (inl 7%nat) None None in
  let s := default initial
             (run defaultConfig [Call 1%nat m; Handoff 1%nat refused] initial) in
  sent (trace (worker s)) = 0%nat ∧
  ∃ s', run defaultConfig [Stop 9%nat; StopOut 9%nat; ReplyClosed 1%nat] s = Some s' ∧
        threads s' !! 1%nat = Some (Returned None) ∧
        worker s' = worker s.
Proof.
  intros m refused ok s.
  split; [reflexivity|].
  assert (Ht : threads s = {[1%nat := AtRecvOut]}) by (vm_compute; reflexivity).
  destruct (Stop_releases_blocked_caller_with_nil defaultConfig s 1%nat 9%nat)
    as (s' & Hrun & _ & Hc & Hw); try reflexivity.
  - intros c p Hl. rewrite Ht in Hl. apply lookup_singleton_Some in Hl as [_ <-].
    reflexivity.
  - exists s'. repeat split; assumption.
Defined.


(** X14: every loop turn and every response taken re-arms the idle timer:
    right after such a step the timer case cannot be taken, nor after any
    further wait shorter than the idle timeout. *)
Theorem timer_rearmed_every_turn cfg (ev : event) (s s' : System) (o : Outcomes) :
  endsTurn ev = true →
  step cfg ev s = Some s' →
  step cfg (Timer o) s' = None ∧
  ∀ d, d < idleTimeout → run cfg [Tick d; Timer o] s' = None.
Proof.
  intros Hev H.
  assert (Hs' : panicked s' = true ∨ wpc s' ≠ Select ∨ (wpc s' = Select ∧ wait s' = 0)).
  { destruct ev; try discriminate Hev; step_inv H; simpl; auto;
      right; left; done. }
  split.
  - unfold step. destruct (panicked s'); [done|].
    destruct Hs' as [?|[Hn|[Hsel Hw]]]; [done| |].
    + by destruct (wpc s').
    + rewrite Hsel, Hw. reflexivity.
  - intros d Hd. cbn [run].
    destruct (step cfg (Tick d) s') as [s1|] eqn:E; [|done].
    assert (step cfg (Timer o) s1 = None) as ->; [|done].
    step_inv E; unfold step; simpl;
      destruct (panicked s'); try done;
      destruct Hs' as [?|[Hn|[Hsel Hw]]]; try done; try congruence.
    rewrite Hw. rewrite bool_decide_eq_false_2; [done|lia].
Qed.

Lemma timer_rearmed_every_turn_witness :
  let m := mkEmail "amy@example.org" "bob@example.org" "hi" "text" "" None in
  let refused := mkOutcomes (inr "connection refused") None None in
  let ok := mkOutcomes (inl 7%nat) None None in
  let s := default initial
             (run defaultConfig
                [Call 1%nat m; Handoff 1%nat ok; Tick (40 * Go.Second)] initial) in
  let s' := default initial (step defaultConfig (Reply 1%nat) s) in
  step defaultConfig (Timer ok) s' = None ∧
  ∀ d, d < idleTimeout → run defaultConfig [Tick d; Timer ok] s' = None.
Proof.
  intros m refused ok s s'.
  apply (timer_rearmed_every_turn defaultConfig (Reply 1%nat) s s' ok).
  - reflexivity.
  - vm_compute. reflexivity.
Defined.


Lemma step_log cfg ev s s' :
  isTimer ev = false → step cfg ev s = Some s' → log (worker s') = log (worker s).
Proof. intros Hev H. destruct ev; try discriminate Hev; step_inv H; done. Qed.

(** X15: only the timer case writes to the log: over any run without it the
    log stays as it is, also when a Close after a failed send fails. *)
Theorem only_idle_close_is_logged cfg (evs : list event) (s s' : System) :
  Forall (λ ev, isTimer ev = false) evs →
  run cfg evs s = Some s' →
  log (worker s') = log (worker s).
Proof.
  intros Hevs Hrun.
  apply (run_invariant_where cfg (λ ev, isTimer ev = false)
           (λ s1, log (worker s1) = log (worker s))) with evs s; try done.
  intros ev sa sb Hev Ha H. rewrite <- Ha. by apply (step_log cfg ev).
Qed.

Lemma only_idle_close_is_logged_witness :
  let m := mkEmail "amy@example.org" "bob@example.org" "hi" "text" "" None in
  let refused := mkOutcomes (inr "connection refused") None None in
  let ok := mkOutcomes (inl 7%nat) None None in
  let broken := mkOutcomes (inl 7%nat) (Some "broken pipe")
                           (Some "use of closed network connection") in
  let s' := default initial
              (run defaultConfig [Call 1%nat m; Handoff 1%nat broken; Reply 1%nat]
                 initial) in
  log (worker s') = [(Info, "SMTP-Service started, ready to send emails")].
Proof.
  intros m refused ok broken s'.
  apply (only_idle_close_is_logged defaultConfig
           [Call 1%nat m; Handoff 1%nat broken; Reply 1%nat] initial s').
  - repeat constructor.
  - vm_compute. reflexivity.
Defined.


Lemma Handoff_dial_fails cfg c o msg err s :
  panicked s = false → chanInClosed s = false → wpc s = Select →
  threads s !! c = Some (AtSendIn msg) →
  open (worker s) = false → dial o = inr err →
  step cfg (Handoff c o) s
  = Some (mkSystem
            (mkWorker false None (Some err) (log (worker s))
                      ((trace (worker s) ++ [WRecv msg]) ++ [WDial (inr err)]))
            Select 0 false (chanOutClosed s) (<[c := AtRecvOut]> (threads s)) false).
Proof.
  intros Hp Hin Hpc Hc Ho Hd. rewrite (step_Handoff cfg c o msg s) by done.
  unfold_turn. simpl. rewrite Ho. simpl. rewrite Hd. simpl. by rewrite Hin, Hp.
Qed.

Lemma Handoff_dial_succeeds cfg c o msg k s :
  panicked s = false → chanInClosed s = false → wpc s = Select →
  threads s !! c = Some (AtSendIn msg) →
  open (worker s) = false → dial o = inl k →
  step cfg (Handoff c o) s
  = Some (mkSystem
            (mkWorker (match send o with Some _ => false | None => true end)
                      (Some k) None (log (worker s))
                      (((trace (worker s) ++ [WRecv msg]) ++ [WDial (inl k)])
                       ++ WSend k msg (send o)
                       :: match send o with
                          | Some _ => [WClose k (close o)]
                          | None => []
                          end))
            (SendOut (send o)) 0 false (chanOutClosed s)
            (<[c := AtRecvOut]> (threads s)) false).
Proof.
  intros Hp Hin Hpc Hc Ho Hd. rewrite (step_Handoff cfg c o msg s) by done.
  unfold_turn. simpl. rewrite Ho. simpl. rewrite Hd. simpl.
  rewrite Hin, Hp. by destruct (send o).
Qed.

(** X16: responses are not tied to requests. With the connection closed and
    the goroutine in the select, when the dial for a first caller fails and
    a second caller's message is then dialed for and sent, the first caller
    can take the result of the second caller's send; the second caller is
    then blocked with nothing on offer, and the only message sent is the
    second one. *)
Theorem response_taken_by_stranded_caller cfg (s : System) (c1 c2 : nat)
    (m1 m2 : Email) (o1 o2 : Outcomes) (err : string) (k : SendCloser) :
  panicked s = false →
  chanInClosed s = false →
  chanOutClosed s = false →
  wpc s = Select →
  open (worker s) = false →
  threads s !! c1 = None →
  threads s !! c2 = None →
  c1 ≠ c2 →
  dial o1 = inr err →
  dial o2 = inl k →
  ∃ s', run cfg [Call c1 m1; Handoff c1 o1; Call c2 m2; Handoff c2 o2; Reply c1] s
        = Some s' ∧
        threads s' !! c1 = Some (Returned (send o2)) ∧
        threads s' !! c2 = Some AtRecvOut ∧
        wpc s' = Select ∧
        List.filter isSend (trace (worker s'))
        = List.filter isSend (trace (worker s))
          ++ [WSend k (composeMessage cfg m2) (send o2)].
Proof.
  intros Hp Hin Hout Hpc Ho H1 H2 Hne Hd1 Hd2.
  eexists. split.
  - cbn [run]. rewrite step_Call by done. cbv beta iota.
    erewrite Handoff_dial_fails;
      [| done | done | done | apply lookup_insert_eq | done | exact Hd1].
    cbv beta iota.
    rewrite step_Call
      by (cbn [panicked chanInClosed threads setThread];
          rewrite ?lookup_insert_ne by done; done).
    cbv beta iota.
    erewrite Handoff_dial_succeeds;
      [| done | done | done | apply lookup_insert_eq | done | exact Hd2].
    cbv beta iota.
    erewrite step_Reply; [reflexivity | done | done | done |].
    cbn [threads setThread]. rewrite lookup_insert_ne by done.
    rewrite lookup_insert_ne by done. apply lookup_insert_eq.
  - unfold resume, note, setThread. cbn [fst snd threads worker wpc trace chanInClosed chanOutClosed panicked wait].
    split; [apply lookup_insert_eq|].
    split; [by rewrite lookup_insert_ne, lookup_insert_eq by done|].
    split; [done|].
    rewrite !List.filter_app. cbn [List.filter isSend].
    rewrite !app_nil_r. by destruct (send o2).
Qed.

Lemma response_taken_by_stranded_caller_witness :
  let m := mkEmail "amy@example.org" "bob@example.org" "hi" "text" "" None in
  let refused := mkOutcomes (inr "connection refused") None None in
  let ok := mkOutcomes (inl 7%nat) None None in
  ∃ s', run defaultConfig
          [Call 1%nat m; Handoff 1%nat refused; Call 2%nat m; Handoff 2%nat ok;
           Reply 1%nat] initial = Some s' ∧
        threads s' !! 1%nat = Some (Returned None) ∧
        threads s' !! 2%nat = Some AtRecvOut.
Proof.
  intros m refused ok.
  destruct (response_taken_by_stranded_caller defaultConfig initial 1%nat 2%nat m m
              refused ok "connection refused" 7%nat)
    as (s' & Hrun & H1 & H2 & _); try reflexivity.
  - discriminate.
  - exists s'. repeat split; assumption.
Defined.
